(** * keepr: repair-request form, image attachments and the auth modal

    A shallow embedding of the view-layer logic of
    [src/pages/NewRepairRequest.tsx], [src/components/auth/AuthModal.tsx]
    and [src/components/auth/LoginForm.tsx], followed by the properties
    of that logic.

    Conventions.  A JavaScript string is a [string]; one character of the
    Rocq string stands for one code unit, so [String.length] is the
    [.length] the schema library reads.  Component state ([useState]) and
    the browser objects a handler touches (toasts, session storage, the
    blob-URL store, the router) are fields of an explicit world record that
    every handler takes and returns. *)

From stdpp Require Import base option list strings gmap fin_maps.
From Stdlib Require Import NArith Ascii String Lia.

Local Open Scope string_scope.

(** Strings are appended with [+:+]; [++] is kept for lists. *)
Disable Notation "x ++ y" : string_scope.

(* ===================================================================== *)
(** ** JavaScript values shared by the components *)
(* ===================================================================== *)

Module Js.

(** [s.startsWith(p)] *)
Fixpoint startsWith (p s : string) : bool :=
  match p, s with
  | EmptyString, _ => true
  | String a p', String b s' => if Ascii.eqb a b then startsWith p' s' else false
  | String _ _, EmptyString => false
  end.

(** [s.includes(p)]: [p] occurs at some offset of [s]. *)
Fixpoint includes (p s : string) : bool :=
  startsWith p s ||
  match s with
  | EmptyString => false
  | String _ s' => includes p s'
  end.

(** The fragment of regular expressions that the source uses: literal
    characters, [.] and the greedy [.*]. *)
Inductive ReAtom :=
| Lit (c : ascii)
| Dot
| DotStar.

(** Line terminators are the only characters [.] refuses (LF and CR among
    the 8-bit units). *)
Definition isLineTerminator (c : ascii) : bool :=
  Ascii.eqb c "010"%char || Ascii.eqb c "013"%char.

(** Match the atoms at the start of [s], backtracking over [.*]. *)
Fixpoint matchHere (re : list ReAtom) (s : string) : bool :=
  match re with
  | [] => true
  | Lit c :: re' =>
      match s with
      | String d s' => if Ascii.eqb c d then matchHere re' s' else false
      | EmptyString => false
      end
  | Dot :: re' =>
      match s with
      | String d s' => if isLineTerminator d then false else matchHere re' s'
      | EmptyString => false
      end
  | DotStar :: re' =>
      (fix star (t : string) : bool :=
         matchHere re' t ||
         match t with
         | String d t' => if isLineTerminator d then false else star t'
         | EmptyString => false
         end) s
  end.

(** [s.match(re)] is non-null: the pattern has no anchor, so every start
    offset is tried. *)
Fixpoint reSearch (re : list ReAtom) (s : string) : bool :=
  matchHere re s ||
  match s with
  | EmptyString => false
  | String _ s' => reSearch re s'
  end.

(** Compile the pattern text: [.*] becomes [DotStar], a lone [.] becomes
    [Dot], any other character a literal (the source's only pattern is
    ['image.*']). *)
Fixpoint reCompile (p : string) : list ReAtom :=
  match p with
  | String "." (String "*" p') => DotStar :: reCompile p'
  | String "." p' => Dot :: reCompile p'
  | String c p' => Lit c :: reCompile p'
  | EmptyString => []
  end.

(** The literal atoms of a text. *)
Fixpoint lits (p : string) : list ReAtom :=
  match p with
  | EmptyString => []
  | String c p' => Lit c :: lits p'
  end.

(** [!!s.match(p)] for a pattern given as a string. *)
Definition matches (s p : string) : bool := reSearch (reCompile p) s.

(** [String(c).repeat(n)] *)
Fixpoint repeat (c : ascii) (n : nat) : string :=
  match n with
  | O => EmptyString
  | S n' => String c (repeat c n')
  end.

(** What a [catch] clause can receive: an [Error] instance with its
    message, or any other thrown value. *)
Inductive Thrown :=
| ThrownError (message : string)
| ThrownOther.

(** The settled state of an awaited promise. *)
Inductive Awaited (A : Type) :=
| Resolved (a : A)
| Rejected (e : Thrown).
Arguments Resolved {A} a.
Arguments Rejected {A} e.

(** V8's message for reading a property of [null]. *)
Definition nullPropertyMessage (prop : string) : string :=
  "Cannot read properties of null (reading '" +:+ prop +:+ "')".

End Js.

(* ===================================================================== *)
(** ** Notifications *)
(* ===================================================================== *)

Module Ui.

Inductive Variant := Default | Destructive.

(** The argument of [toast({ title, description, variant })]; a call
    without [variant] shows the default one. *)
Record Toast := mkToast {
  title : string;
  description : string;
  variant : Variant
}.

End Ui.

(* ===================================================================== *)
(** ** The schema validators of [formSchema] *)
(* ===================================================================== *)

Module Zod.

(** The checks of [z.string()] used by the form. *)
Inductive StringCheck :=
| Min (value : nat) (message : string)
| Max (value : nat) (message : string).

(** One check yields an issue when it fails: [min] when the length is
    below its value, [max] when the length is above it. *)
Definition checkIssue (input : string) (c : StringCheck) : option string :=
  match c with
  | Min v msg => if (String.length input <? v)%nat then Some msg else None
  | Max v msg => if (v <? String.length input)%nat then Some msg else None
  end.

(** All checks run; the issues are collected in order. *)
Definition stringIssues (checks : list StringCheck) (input : string) : list string :=
  omap (checkIssue input) checks.

(** [z.enum(values, { required_error })]: a missing input reports the
    required error, a string outside [values] an invalid-enum issue (its
    message, which lists the expected values, is shortened here). *)
Definition enumIssues (values : list string) (requiredError : string)
    (input : option string) : list string :=
  match input with
  | None => [requiredError]
  | Some v => if bool_decide (v ∈ values) then [] else ["Invalid enum value"]
  end.

(** A parse succeeds when no issue was raised. *)
Definition accepts (issues : list string) : bool :=
  match issues with [] => true | _ => false end.

End Zod.

(** [deviceTypes], the options of the select control. *)
Definition deviceTypes : list string :=
  [ "Vacuum cleaner"; "Coffee machine"; "TV"; "Radio"; "Lighting";
    "Fume hood"; "Laptop"; "Smartphone"; "Other" ].

(** The literals of [formSchema.deviceType]. *)
Definition deviceTypeEnum : list string :=
  [ "Vacuum cleaner"; "Coffee machine"; "TV"; "Radio"; "Lighting";
    "Fume hood"; "Laptop"; "Smartphone"; "Other" ].

Definition deviceTypeIssues (input : option string) : list string :=
  Zod.enumIssues deviceTypeEnum "Please select a device type" input.

Definition descriptionChecks : list Zod.StringCheck :=
  [ Zod.Min 20 "Description must be at least 20 characters";
    Zod.Max 500 "Description cannot be longer than 500 characters" ].

Definition descriptionIssues (input : string) : list string :=
  Zod.stringIssues descriptionChecks input.

(** The validators as the form resolver uses them. *)
Definition validDeviceType (input : option string) : bool :=
  Zod.accepts (deviceTypeIssues input).

Definition validDescription (input : string) : bool :=
  Zod.accepts (descriptionIssues input).

(* ===================================================================== *)
(** ** Image attachments: [handleImageChange] and [removeImage] *)
(* ===================================================================== *)

Module Images.

(** The fields of a DOM [File] that the handler reads. *)
Record File := mkFile {
  file_name : string;
  file_type : string;
  file_size : N
}.

(** Object URLs are opaque tokens handed out by the browser; a token is
    modelled by the serial number of the [createObjectURL] call that made
    it.  [blobs] is the browser's blob-URL store: the file each live URL
    resolves to. *)
Record World := mkWorld {
  images : list File;
  imagePreviewUrls : list N;
  toasts : list Ui.Toast;
  blobs : gmap N File;
  nextUrl : N
}.

Definition initial : World :=
  {| images := []; imagePreviewUrls := []; toasts := [];
     blobs := ∅; nextUrl := 0%N |}.

(** The loop of [handleImageChange] works on two local arrays and on the
    browser; [Locals] is what one iteration reads and writes. *)
Record Locals := mkLocals {
  newImages : list File;
  newImagePreviewUrls : list N;
  shown : list Ui.Toast;
  store : gmap N File;
  fresh : N
}.

Definition toast (t : Ui.Toast) (l : Locals) : Locals :=
  {| newImages := newImages l; newImagePreviewUrls := newImagePreviewUrls l;
     shown := shown l ++ [t]; store := store l; fresh := fresh l |}.

(** [5 * 1024 * 1024] *)
Definition maxFileSize : N := (5 * 1024 * 1024)%N.

Definition invalidFileType : Ui.Toast :=
  {| Ui.title := "Invalid file type";
     Ui.description := "Please upload only image files";
     Ui.variant := Ui.Destructive |}.

Definition fileTooLarge : Ui.Toast :=
  {| Ui.title := "File too large";
     Ui.description := "Please upload images smaller than 5MB";
     Ui.variant := Ui.Destructive |}.

(** One iteration of the [for] loop; each [continue] is a branch that
    leaves the two arrays as they are. *)
Definition offer (l : Locals) (file : File) : Locals :=
  if negb (Js.matches (file_type file) "image.*") then
    toast invalidFileType l
  else if (maxFileSize <? file_size file)%N then
    toast fileTooLarge l
  else
    {| newImages := newImages l ++ [file];
       newImagePreviewUrls := newImagePreviewUrls l ++ [fresh l];
       shown := shown l;
       store := <[fresh l := file]> (store l);
       fresh := N.succ (fresh l) |}.

(** [handleImageChange]: [files] is [e.target.files], which may be null. *)
Definition handleImageChange (files : option (list File)) (w : World) : World :=
  match files with
  | None => w
  | Some fs =>
      let l := fold_left offer fs
                 {| newImages := images w;
                    newImagePreviewUrls := imagePreviewUrls w;
                    shown := toasts w; store := blobs w; fresh := nextUrl w |} in
      {| images := newImages l; imagePreviewUrls := newImagePreviewUrls l;
         toasts := shown l; blobs := store l; nextUrl := fresh l |}
  end.

(** [URL.revokeObjectURL(urls[index])]: an index past the end reads
    [undefined], which names no URL. *)
Definition revokeObjectURL (u : option N) (m : gmap N File) : gmap N File :=
  match u with
  | Some u => delete u m
  | None => m
  end.

(** [removeImage]: [splice(index, 1)] removes the element at [index] and
    nothing when [index] is past the end. *)
Definition removeImage (index : nat) (w : World) : World :=
  {| images := delete index (images w);
     imagePreviewUrls := delete index (imagePreviewUrls w);
     toasts := toasts w;
     blobs := revokeObjectURL (imagePreviewUrls w !! index) (blobs w);
     nextUrl := nextUrl w |}.

(** The user's operations on the attachment list. *)
Inductive Op :=
| Add (files : option (list File))
| Remove (index : nat).

Definition step (w : World) (o : Op) : World :=
  match o with
  | Add files => handleImageChange files w
  | Remove index => removeImage index w
  end.

Definition run (ops : list Op) : World := fold_left step ops initial.

(** The two lists are aligned: they have the same length, and the URL at
    each index resolves, in the browser's store, to the file at the same
    index of [images]: it is the URL that [createObjectURL] made for that
    file, and it has not been revoked. *)
Definition aligned (w : World) : Prop :=
  List.length (images w) = List.length (imagePreviewUrls w) ∧
  ∀ (i : nat) (u : N), imagePreviewUrls w !! i = Some u →
    ∃ f, images w !! i = Some f ∧ blobs w !! u = Some f.

(** The loop's variables seen as a world, and back. *)
Definition ofWorld (w : World) : Locals :=
  {| newImages := images w; newImagePreviewUrls := imagePreviewUrls w;
     shown := toasts w; store := blobs w; fresh := nextUrl w |}.

Definition toWorld (l : Locals) : World :=
  {| images := newImages l; imagePreviewUrls := newImagePreviewUrls l;
     toasts := shown l; blobs := store l; nextUrl := fresh l |}.

(** What keeps the alignment alive across operations: no URL is listed
    twice, and every URL of the store was handed out before [nextUrl]. *)
Definition wellFormed (w : World) : Prop :=
  aligned w ∧
  NoDup (imagePreviewUrls w) ∧
  ∀ u, is_Some (blobs w !! u) → (u < nextUrl w)%N.

(** The file passes both checks of the loop. *)
Definition accepted (f : File) : bool :=
  Js.matches (file_type f) "image.*" && negb (maxFileSize <? file_size f)%N.

(** The notice one file causes, if any. *)
Definition notice (f : File) : list Ui.Toast :=
  if negb (Js.matches (file_type f) "image.*") then [invalidFileType]
  else if (maxFileSize <? file_size f)%N then [fileTooLarge]
  else [].

(** An image type in the sense of the notice and of the input's
    [accept="image/*"]: a MIME type of the [image/] family. *)
Definition isImageType (f : File) : bool := Js.startsWith "image/" (file_type f).

End Images.

(* ===================================================================== *)
(** ** The submission sequence: [NewRepairRequest.onSubmit] *)
(* ===================================================================== *)

Module Submit.

Record User := mkUser { id : string }.

(** [z.infer<typeof formSchema>] *)
Record FormValues := mkValues {
  deviceType : string;
  brand : option string;
  model : option string;
  description : string
}.

(** The object passed to [from('products').insert]. *)
Record ProductRow := mkProductRow {
  p_user_id : string;
  p_type : string;
  p_brand : option string;
  p_model : option string;
  p_status : string
}.

(** The object passed to [from('repair_requests').insert]. *)
Record RepairRow := mkRepairRow {
  r_user_id : string;
  r_product_id : string;
  r_description : string;
  r_status : string
}.

(** [{ data, error }] of an insert followed by [select(col).single()]:
    [data] holds the selected column of the new row, [error] the
    backend's message. *)
Record Response := mkResponse {
  data : option string;
  error : option string
}.

(** The remote backend, an opaque collaborator: what each call settles
    to. *)
Record Backend := mkBackend {
  getUser : Js.Awaited (option User);
  insertProduct : ProductRow → Js.Awaited Response;
  insertRepairRequest : RepairRow → Js.Awaited Response
}.

(** The remote calls a run issues, oldest first. *)
Inductive Call :=
| GetUser
| InsertProduct (row : ProductRow)
| InsertRepairRequest (row : RepairRow).

Record World := mkWorld {
  isSubmitting : bool;
  toasts : list Ui.Toast;
  sessionStorage : gmap string string;
  navigations : list string;
  calls : list Call;
  console : list string
}.

Definition initial : World :=
  {| isSubmitting := false; toasts := []; sessionStorage := ∅;
     navigations := []; calls := []; console := [] |}.

(** How a block of statements completes. *)
Inductive Completion (A : Type) :=
| Normal (a : A)
| Throw (e : Js.Thrown)
| Return.
Arguments Normal {A} a.
Arguments Throw {A} e.
Arguments Return {A}.

(** Statements: a state transformer with a completion. *)
Definition M (A : Type) : Type := World → Completion A * World.

#[export] Instance M_ret : MRet M := λ A a w, (Normal a, w).

#[export] Instance M_bind : MBind M := λ A B f m w,
  match m w with
  | (Normal a, w') => f a w'
  | (Throw e, w') => (Throw e, w')
  | (Return, w') => (Return, w')
  end.

Definition throw {A} (e : Js.Thrown) : M A := λ w, (Throw e, w).

(** [return;] *)
Definition return_ {A} : M A := λ w, (Return, w).

Definition modify (f : World → World) : M unit := λ w, (Normal tt, f w).

(** [try { body } catch (error) { handler } finally { final }] *)
Definition tryCatchFinally (body : M unit) (handler : Js.Thrown → M unit)
    (final : M unit) : M unit := λ w,
  let '(c, w1) :=
    match body w with
    | (Throw e, w') => handler e w'
    | r => r
    end in
  match final w1 with
  | (Normal _, w2) => (c, w2)
  | r => r
  end.

Definition setIsSubmitting (b : bool) : M unit := modify (λ w,
  {| isSubmitting := b; toasts := toasts w;
     sessionStorage := sessionStorage w; navigations := navigations w;
     calls := calls w; console := console w |}).

Definition toast (t : Ui.Toast) : M unit := modify (λ w,
  {| isSubmitting := isSubmitting w; toasts := toasts w ++ [t];
     sessionStorage := sessionStorage w; navigations := navigations w;
     calls := calls w; console := console w |}).

(** [sessionStorage.setItem(key, value)] *)
Definition setItem (key value : string) : M unit := modify (λ w,
  {| isSubmitting := isSubmitting w; toasts := toasts w;
     sessionStorage := <[key := value]> (sessionStorage w);
     navigations := navigations w; calls := calls w; console := console w |}).

Definition navigate (path : string) : M unit := modify (λ w,
  {| isSubmitting := isSubmitting w; toasts := toasts w;
     sessionStorage := sessionStorage w;
     navigations := navigations w ++ [path];
     calls := calls w; console := console w |}).

(** [console.log] and [console.error], by their first argument. *)
Definition consoleWrite (label : string) : M unit := modify (λ w,
  {| isSubmitting := isSubmitting w; toasts := toasts w;
     sessionStorage := sessionStorage w; navigations := navigations w;
     calls := calls w; console := console w ++ [label] |}).

(** [await] of a remote call: the call is issued, then its promise
    settles; a rejection is thrown at the [await]. *)
Definition await {A} (c : Call) (p : Js.Awaited A) : M A := λ w,
  let w' := {| isSubmitting := isSubmitting w; toasts := toasts w;
               sessionStorage := sessionStorage w;
               navigations := navigations w;
               calls := calls w ++ [c]; console := console w |} in
  match p with
  | Js.Resolved a => (Normal a, w')
  | Js.Rejected e => (Throw e, w')
  end.

(** [value || null] on an optional string: the empty string is falsy. *)
Definition orNull (v : option string) : option string :=
  match v with
  | Some EmptyString => None
  | Some s => Some s
  | None => None
  end.

(** [row.col] on the [data] of a response: a [TypeError] when [data] is
    null. *)
Definition member (col : string) (d : option string) : M string :=
  match d with
  | Some v => mret v
  | None => throw (Js.ThrownError (Js.nullPropertyMessage col))
  end.

Definition authenticationRequired : Ui.Toast :=
  {| Ui.title := "Authentication required";
     Ui.description := "Please sign in to submit a repair request.";
     Ui.variant := Ui.Destructive |}.

Definition repairRequestCreated : Ui.Toast :=
  {| Ui.title := "Repair request created";
     Ui.description := "Now let's select available timeslots.";
     Ui.variant := Ui.Default |}.

(** The toast of the [catch] clause. *)
Definition submissionFailed (e : Js.Thrown) : Ui.Toast :=
  {| Ui.title := "Submission failed";
     Ui.description :=
       match e with
       | Js.ThrownError message => message
       | Js.ThrownOther =>
           "There was a problem submitting your repair request. Please try again."
       end;
     Ui.variant := Ui.Destructive |}.

Definition productRow (user : User) (values : FormValues) : ProductRow :=
  {| p_user_id := id user; p_type := deviceType values;
     p_brand := orNull (brand values); p_model := orNull (model values);
     p_status := "broken" |}.

Definition repairRow (user : User) (product_id : string) (values : FormValues)
    : RepairRow :=
  {| r_user_id := id user; r_product_id := product_id;
     r_description := description values; r_status := "created" |}.

(** The body of the [try] block. *)
Definition submitBody (be : Backend) (values : FormValues) : M unit :=
  user ← await GetUser (getUser be);
  match user with
  | None =>
      toast authenticationRequired;;
      setIsSubmitting false;;
      return_
  | Some user =>
      let prow := productRow user values in
      product ← await (InsertProduct prow) (insertProduct be prow);
      match error product with
      | Some message =>
          consoleWrite "Error creating product:";;
          throw (Js.ThrownError ("Failed to create product: " +:+ message))
      | None =>
          product_id ← member "product_id" (data product);
          let rrow := repairRow user product_id values in
          repairRequest ← await (InsertRepairRequest rrow)
                            (insertRepairRequest be rrow);
          match error repairRequest with
          | Some _ =>
              consoleWrite "Error creating repair request:";;
              throw (Js.ThrownError "Failed to create repair request")
          | None =>
              repair_id ← member "repair_id" (data repairRequest);
              setItem "repairRequestId" repair_id;;
              toast repairRequestCreated;;
              navigate "/repair-request-timeslots"
          end
      end
  end.

(** [onSubmit] *)
Definition onSubmit (be : Backend) (values : FormValues) : M unit :=
  setIsSubmitting true;;
  consoleWrite "Submitted values:";;
  tryCatchFinally
    (submitBody be values)
    (λ e, consoleWrite "Submission error:";; toast (submissionFailed e))
    (setIsSubmitting false).

(** The world after the handler's promise has settled. *)
Definition submit (be : Backend) (values : FormValues) (w : World) : World :=
  snd (onSubmit be values w).

(** The remote calls that this run added to the log. *)
Definition issued (be : Backend) (values : FormValues) (w : World) : list Call :=
  drop (List.length (calls w)) (calls (submit be values w)).

(** The notices that this run showed. *)
Definition notices (be : Backend) (values : FormValues) (w : World)
    : list Ui.Toast :=
  drop (List.length (toasts w)) (toasts (submit be values w)).

(** An insert fails when its promise rejects or its response carries an
    error; it succeeds with identifier [i] when the response has no error
    and [data] holds [i]. *)
Definition failed (p : Js.Awaited Response) : Prop :=
  match p with
  | Js.Resolved r => is_Some (error r)
  | Js.Rejected _ => True
  end.

Definition succeeded (p : Js.Awaited Response) (i : string) : Prop :=
  p = Js.Resolved {| data := Some i; error := None |}.

End Submit.

(* ===================================================================== *)
(** ** The auth modal and the login form *)
(* ===================================================================== *)

Module Auth.

(** [AuthModalProps.type] *)
Inductive AuthType := TypeRepair | TypeHelp | TypeLogin.

(** [AuthStep] *)
Inductive AuthStep := StepLogin | StepRegister | StepVerify.

#[export] Instance AuthType_eq_dec : EqDecision AuthType.
Proof. solve_decision. Defined.

#[export] Instance AuthStep_eq_dec : EqDecision AuthStep.
Proof. solve_decision. Defined.

(** [type === "login" ? "login" : "register"] *)
Definition initialStep (type : AuthType) : AuthStep :=
  if decide (type = TypeLogin) then StepLogin else StepRegister.

Record Props := mkProps {
  isOpen : bool;
  type : AuthType
}.

(** The component's state cells, and the dependency values [isOpen, type]
    that the effect saw when it last ran. *)
Record Modal := mkModal {
  step : AuthStep;
  email : string;
  deps : bool * AuthType
}.

Definition setStep (s : AuthStep) (m : Modal) : Modal :=
  {| step := s; email := email m; deps := deps m |}.

Definition setEmail (e : string) (m : Modal) : Modal :=
  {| step := step m; email := e; deps := deps m |}.

(** The body of the [useEffect]. *)
Definition resetEffect (p : Props) (m : Modal) : Modal :=
  if isOpen p then setStep (initialStep (type p)) m else m.

(** First render: [useState] takes its initial values, then the effect
    runs once. *)
Definition mount (p : Props) : Modal :=
  resetEffect p
    {| step := initialStep (type p); email := ""; deps := (isOpen p, type p) |}.

(** A later render with props [p]: the effect runs again only when one of
    its dependencies differs from the value it last saw. *)
Definition render (p : Props) (m : Modal) : Modal :=
  if decide (deps m = (isOpen p, type p)) then m
  else resetEffect p {| step := step m; email := email m;
                        deps := (isOpen p, type p) |}.

Definition handleLoginClick (m : Modal) : Modal := setStep StepLogin m.

Definition handleRegisterClick (m : Modal) : Modal := setStep StepRegister m.

(** The state part of [handleRegisterSuccess]. *)
Definition handleRegisterSuccess (userEmail : string) (m : Modal) : Modal :=
  setStep StepVerify (setEmail userEmail m).

(** What the user can do to an existing modal between two renders. *)
Inductive Action :=
| LoginClick
| RegisterClick
| RegisterSuccess (userEmail : string)
| Rerender (p : Props).

Definition act (m : Modal) (a : Action) : Modal :=
  match a with
  | LoginClick => handleLoginClick m
  | RegisterClick => handleRegisterClick m
  | RegisterSuccess e => handleRegisterSuccess e m
  | Rerender p => render p m
  end.

(** *** Side effects of the success handlers *)

(** A change of location: through the router ([navigate(path)]) or by a
    page load ([window.location.href = path]). *)
Inductive Nav :=
| RouterNavigate (path : string)
| LocationAssign (path : string).

Inductive Call :=
| SignInWithPassword (email password : string)
| GetSession.

Record World := mkWorld {
  isSubmitting : bool;
  toasts : list Ui.Toast;
  closed : nat;
  navLog : list Nav;
  calls : list Call;
  console : list string
}.

Definition initial : World :=
  {| isSubmitting := false; toasts := []; closed := 0; navLog := [];
     calls := []; console := [] |}.

Definition setIsSubmitting (b : bool) (w : World) : World :=
  {| isSubmitting := b; toasts := toasts w; closed := closed w;
     navLog := navLog w; calls := calls w; console := console w |}.

Definition toast (t : Ui.Toast) (w : World) : World :=
  {| isSubmitting := isSubmitting w; toasts := toasts w ++ [t];
     closed := closed w; navLog := navLog w; calls := calls w;
     console := console w |}.

Definition onClose (w : World) : World :=
  {| isSubmitting := isSubmitting w; toasts := toasts w;
     closed := S (closed w); navLog := navLog w; calls := calls w;
     console := console w |}.

Definition go (n : Nav) (w : World) : World :=
  {| isSubmitting := isSubmitting w; toasts := toasts w;
     closed := closed w; navLog := navLog w ++ [n]; calls := calls w;
     console := console w |}.

Definition issue (c : Call) (w : World) : World :=
  {| isSubmitting := isSubmitting w; toasts := toasts w;
     closed := closed w; navLog := navLog w; calls := calls w ++ [c];
     console := console w |}.

Definition consoleWrite (label : string) (w : World) : World :=
  {| isSubmitting := isSubmitting w; toasts := toasts w;
     closed := closed w; navLog := navLog w; calls := calls w;
     console := console w ++ [label] |}.

(** [{ data: { session }, error }] of [getSession]. *)
Record SessionResponse := mkSessionResponse {
  session : bool;
  sessionError : option string
}.

(** The redirect at the end of both success handlers: [None] is the
    branch that returns (or falls through) without assigning
    [window.location.href]. *)
Definition redirect (currentPath : string) (type : AuthType) : option string :=
  if Js.startsWith "/" currentPath
     && (1 <? String.length currentPath)%nat
     && negb (Js.includes "/dashboard" currentPath)
  then None
  else if decide (type = TypeRepair) then Some "/new-repair-request"
  else if decide (type = TypeHelp) then Some "/repair-requests"
  else None.

Definition applyRedirect (currentPath : string) (type : AuthType)
    (w : World) : World :=
  match redirect currentPath type with
  | Some href => go (LocationAssign href) w
  | None => w
  end.

(** An [async] function that is called and not awaited: [start] is what
    runs inside the call, up to the first [await]; [resume] is what runs
    once the awaited promise has settled, after the caller's own
    synchronous code has finished. *)
Record Async := mkAsync {
  start : World → World;
  resume : World → World
}.

(** The part of a success handler after [await getSession()]; the two
    handlers differ in their notices only.  A rejected promise leaves the
    handler without a [catch]: nothing more runs. *)
Definition afterSession (errTitle errDescription failTitle okTitle okDescription : string)
    (currentPath : string) (type : AuthType)
    (r : Js.Awaited SessionResponse) (w : World) : World :=
  match r with
  | Js.Rejected _ => w
  | Js.Resolved r =>
      match sessionError r with
      | Some _ =>
          toast {| Ui.title := errTitle; Ui.description := errDescription;
                   Ui.variant := Ui.Destructive |}
                (consoleWrite "Session error:" w)
      | None =>
          if session r then
            applyRedirect currentPath type
              (onClose
                 (toast {| Ui.title := okTitle; Ui.description := okDescription;
                           Ui.variant := Ui.Default |} w))
          else
            toast {| Ui.title := failTitle;
                     Ui.description := "No session found. Please try again.";
                     Ui.variant := Ui.Destructive |} w
      end
  end.

(** [handleLoginSuccess], closed over the [currentPath] and [type] of the
    render that created it. *)
Definition handleLoginSuccess (currentPath : string) (type : AuthType)
    (r : Js.Awaited SessionResponse) : Async :=
  {| start := issue GetSession;
     resume := afterSession
       "Authentication error"
       "There was a problem with your login. Please try again."
       "Login failed"
       "Login successful" "You have been logged in successfully."
       currentPath type r |}.

(** [handleVerificationSuccess] *)
Definition handleVerificationSuccess (currentPath : string) (type : AuthType)
    (r : Js.Awaited SessionResponse) : Async :=
  {| start := issue GetSession;
     resume := afterSession
       "Verification error"
       "There was a problem verifying your account. Please try again."
       "Verification failed"
       "Verification successful"
       "Your email has been verified. You are now logged in."
       currentPath type r |}.

(** A caller that does nothing else after the call, as the verification
    form's success callback is used. *)
Definition runAsync (f : Async) (w : World) : World := resume f (start f w).

(** [{ data, error }] of [signInWithPassword]; [signInError] is
    [error.message]. *)
Record SignInResponse := mkSignInResponse {
  signInError : option string
}.

Record Credentials := mkCredentials {
  cred_email : string;
  cred_password : string
}.

(** [error.message || fallback] *)
Definition orElse (message fallback : string) : string :=
  match message with
  | EmptyString => fallback
  | _ => message
  end.

(** [LoginForm.onSubmit].  On success the handler calls [onLoginSuccess()]
    without awaiting it and then calls [navigate("/dashboard")]; the rest
    of [onLoginSuccess] runs afterwards. *)
Definition onSubmit (onLoginSuccess : Async) (values : Credentials)
    (r : Js.Awaited SignInResponse) (w : World) : World :=
  let w := setIsSubmitting true w in
  let w := issue (SignInWithPassword (cred_email values) (cred_password values)) w in
  match r with
  | Js.Rejected _ =>
      setIsSubmitting false
        (toast {| Ui.title := "Login failed";
                  Ui.description := "An unexpected error occurred. Please try again.";
                  Ui.variant := Ui.Destructive |}
               (consoleWrite "Login error:" w))
  | Js.Resolved r =>
      match signInError r with
      | Some message =>
          setIsSubmitting false
            (toast {| Ui.title := "Login failed";
                      Ui.description :=
                        orElse message "Invalid email or password. Please try again.";
                      Ui.variant := Ui.Destructive |}
                   (consoleWrite "Login error:" w))
      | None =>
          let w := consoleWrite "Login successful:" w in
          let w := toast {| Ui.title := "Login successful";
                            Ui.description := "Welcome back!";
                            Ui.variant := Ui.Default |} w in
          let w := setIsSubmitting false w in
          let w := start onLoginSuccess w in
          let w := go (RouterNavigate "/dashboard") w in
          resume onLoginSuccess w
      end
  end.

(** A login through the modal: the form's [onLoginSuccess] is the modal's
    [handleLoginSuccess]. *)
Definition login (currentPath : string) (type : AuthType) (values : Credentials)
    (signIn : Js.Awaited SignInResponse) (sess : Js.Awaited SessionResponse)
    : World :=
  onSubmit (handleLoginSuccess currentPath type sess) values signIn initial.

(** A verification through the modal. *)
Definition verification (currentPath : string) (type : AuthType)
    (sess : Js.Awaited SessionResponse) : World :=
  runAsync (handleVerificationSuccess currentPath type sess) initial.

End Auth.

(* ===================================================================== *)
(** ** Sample runs *)
(* ===================================================================== *)

Module Scenario.

Import Submit.

Definition alice : User := {| id := "user-1" |}.

Definition kettle : FormValues :=
  {| deviceType := "Coffee machine"; brand := Some "Philips";
     model := Some ""; description := "It no longer heats the water at all." |}.

(** Both inserts succeed. *)
Definition online : Backend :=
  {| getUser := Js.Resolved (Some alice);
     insertProduct := λ _, Js.Resolved {| data := Some "product-7"; error := None |};
     insertRepairRequest :=
       λ _, Js.Resolved {| data := Some "repair-9"; error := None |} |}.

(** Nobody is signed in. *)
Definition signedOut : Backend :=
  {| getUser := Js.Resolved None;
     insertProduct := insertProduct online;
     insertRepairRequest := insertRepairRequest online |}.

(** The product insert returns an error. *)
Definition productRefused : Backend :=
  {| getUser := Js.Resolved (Some alice);
     insertProduct :=
       λ _, Js.Resolved {| data := None; error := Some "permission denied" |};
     insertRepairRequest := insertRepairRequest online |}.

(** The repair-request insert returns an error. *)
Definition repairRefused : Backend :=
  {| getUser := Js.Resolved (Some alice);
     insertProduct := insertProduct online;
     insertRepairRequest :=
       λ _, Js.Resolved {| data := None; error := Some "permission denied" |} |}.

End Scenario.

(* ===================================================================== *)
(** ** The form around [onSubmit]: [useForm] with [zodResolver(formSchema)] *)
(* ===================================================================== *)

Module RepairForm.

(** What the controls hold: the select has no value until one is chosen,
    the three text controls always hold a string. *)
Record Fields := mkFields {
  f_deviceType : option string;
  f_brand : string;
  f_model : string;
  f_description : string
}.

(** [defaultValues] *)
Definition defaultValues : Fields :=
  {| f_deviceType := None; f_brand := ""; f_model := ""; f_description := "" |}.

(** The resolver: the parse of [formSchema].  [brand] and [model] are
    [z.string().optional()], which every string passes. *)
Definition resolve (f : Fields) : option Submit.FormValues :=
  match f_deviceType f with
  | Some v =>
      if validDeviceType (Some v) && validDescription (f_description f)
      then Some {| Submit.deviceType := v;
                   Submit.brand := Some (f_brand f);
                   Submit.model := Some (f_model f);
                   Submit.description := f_description f |}
      else None
  | None => None
  end.

(** [form.handleSubmit(onSubmit)]: the handler runs on the parsed values,
    and only when the parse raised no issue. *)
Definition handleSubmit (be : Submit.Backend) (f : Fields) (w : Submit.World)
    : Submit.World :=
  match resolve f with
  | Some values => Submit.submit be values w
  | None => w
  end.

(** The remote calls a press of the submit button added to the log. *)
Definition issued (be : Submit.Backend) (f : Fields) (w : Submit.World)
    : list Submit.Call :=
  drop (List.length (Submit.calls w)) (Submit.calls (handleSubmit be f w)).

End RepairForm.

(* ===================================================================== *)
(** ** Image attachments: the blob-URL store *)
(* ===================================================================== *)

Module ImageStore.

(** The store holds no URL that the preview list has dropped. *)
Definition tracked (w : Images.World) : Prop :=
  ∀ u, is_Some (Images.blobs w !! u) → u ∈ Images.imagePreviewUrls w.

End ImageStore.

(* ===================================================================== *)
(** ** The auth modal: what it renders *)
(* ===================================================================== *)

Module AuthView.

Import Auth.

(** [getTitle] *)
Definition getTitle (type : AuthType) (step : AuthStep) : option string :=
  if bool_decide (type = TypeLogin) || bool_decide (step = StepLogin) then None
  else if decide (type = TypeRepair) then Some "Request a Repair"
  else Some "Help with Repairs".

(** [getDescription] *)
Definition getDescription (type : AuthType) (step : AuthStep) : option string :=
  if bool_decide (type = TypeLogin) || bool_decide (step = StepLogin) then None
  else if decide (type = TypeRepair) then
    Some "Register to connect with volunteer repairers in your neighborhood who can help fix your broken device."
  else
    Some "Browse repair requests in your area and help others fix their broken devices.".

(** The forms of the dialog, with the props that carry state. *)
Inductive FormView :=
| RegisterForm (type : AuthType)
| LoginForm
| VerificationForm (email : string).

(** The three conditional children of [DialogContent], in order. *)
Definition forms (type : AuthType) (m : Modal) : list FormView :=
  (if decide (step m = StepRegister)
   then [RegisterForm (if decide (type = TypeLogin) then TypeRepair else type)]
   else []) ++
  (if decide (step m = StepLogin) then [LoginForm] else []) ++
  (if decide (step m = StepVerify) then [VerificationForm (email m)] else []).

(** The email of the latest successful registration in a history. *)
Definition lastRegistered (acts : list Action) : option string :=
  fold_left (λ r a, match a with RegisterSuccess e => Some e | _ => r end)
            acts None.

(** The modal after a history of actions, from its first render. *)
Definition after (p : Props) (acts : list Action) : Modal :=
  fold_left act acts (mount p).

(** [getSession] answered with a session and no error. *)
Definition established (r : Js.Awaited SessionResponse) : bool :=
  match r with
  | Js.Resolved resp =>
      session resp && bool_decide (sessionError resp = None)
  | Js.Rejected _ => false
  end.

(** The sign-in did not go through: the promise rejected or the response
    carries an error. *)
Definition refused (r : Js.Awaited SignInResponse) : bool :=
  match r with
  | Js.Resolved resp => bool_decide (signInError resp ≠ None)
  | Js.Rejected _ => true
  end.

End AuthView.

(* ===================================================================== *)
(** ** The login form's schema *)
(* ===================================================================== *)

Module LoginSchema.

(** The checks of [formSchema.password]. *)
Definition passwordChecks : list Zod.StringCheck :=
  [ Zod.Min 6 "Password must be at least 6 characters." ].

Definition passwordIssues (input : string) : list string :=
  Zod.stringIssues passwordChecks input.

Definition validPassword (input : string) : bool :=
  Zod.accepts (passwordIssues input).

End LoginSchema.

(* ===================================================================== *)
(** ** The timeslot page: [fetchLocations] *)
(* ===================================================================== *)

Module Timeslots.

(** The columns of [Tables<"locations">] that the page reads. *)
Record Location := mkLocation {
  location_id : string;
  name : string
}.

(** [{ data, error }] of [from('locations').select('*')]. *)
Record Response := mkResponse {
  data : option (list Location);
  error : option string
}.

Record State := mkState {
  locations : list Location;
  selectedLocation : option string;
  loading : bool;
  console : list string
}.

(** [useState] initial values. *)
Definition initial : State :=
  {| locations := []; selectedLocation := None; loading := true;
     console := [] |}.

(** Truthiness of a [string | null]: null and the empty string are falsy. *)
Definition truthy (v : option string) : bool :=
  match v with
  | Some (String _ _) => true
  | _ => false
  end.

Definition consoleError (label : string) (st : State) : State :=
  {| locations := locations st; selectedLocation := selectedLocation st;
     loading := loading st; console := console st ++ [label] |}.

Definition setLocations (d : list Location) (st : State) : State :=
  {| locations := d; selectedLocation := selectedLocation st;
     loading := loading st; console := console st |}.

Definition setSelectedLocation (v : option string) (st : State) : State :=
  {| locations := locations st; selectedLocation := v;
     loading := loading st; console := console st |}.

Definition setLoading (b : bool) (st : State) : State :=
  {| locations := locations st; selectedLocation := selectedLocation st;
     loading := b; console := console st |}.

(** The [try] block of [fetchLocations] after the [await]; the test
    [!selectedLocation] reads the value of the render that started the
    effect. *)
Definition received (resp : Response) (st : State) : State :=
  match error resp with
  | Some _ => consoleError "Error fetching locations:" st
  | None =>
      match data resp with
      | Some d =>
          let st' := setLocations d st in
          match d with
          | first :: _ =>
              if negb (truthy (selectedLocation st))
              then setSelectedLocation (Some (location_id first)) st'
              else st'
          | [] => st'
          end
      | None => st
      end
  end.

(** [fetchLocations]: [try], [catch] and the [finally] that clears
    [loading]. *)
Definition fetchLocations (r : Js.Awaited Response) (st : State) : State :=
  setLoading false
    match r with
    | Js.Resolved resp => received resp st
    | Js.Rejected _ => consoleError "Error in fetchLocations:" st
    end.

(** The condition under which the location dropdown is rendered:
    [!loading && locations.length > 0]. *)
Definition showsDropdown (st : State) : bool :=
  negb (loading st) && (0 <? List.length (locations st))%nat.

End Timeslots.

(* ===================================================================== *)
(** ** Sample runs with a failing network *)
(* ===================================================================== *)

Module Outage.

Import Submit.

(** Every call rejects with a fetch error. *)
Definition unreachable : Backend :=
  {| getUser := Js.Rejected (Js.ThrownError "Failed to fetch");
     insertProduct := λ _, Js.Rejected (Js.ThrownError "Failed to fetch");
     insertRepairRequest := λ _, Js.Rejected (Js.ThrownError "Failed to fetch") |}.

(** The product insert rejects with a value that is no [Error]. *)
Definition productThrows : Backend :=
  {| getUser := Js.Resolved (Some Scenario.alice);
     insertProduct := λ _, Js.Rejected Js.ThrownOther;
     insertRepairRequest := insertRepairRequest Scenario.online |}.

(** The repair-request insert rejects. *)
Definition repairThrows : Backend :=
  {| getUser := Js.Resolved (Some Scenario.alice);
     insertProduct := insertProduct Scenario.online;
     insertRepairRequest := λ _, Js.Rejected (Js.ThrownError "Failed to fetch") |}.

(** A filled-in form, and one whose description is too short. *)
Definition filled : RepairForm.Fields :=
  {| RepairForm.f_deviceType := Some "Coffee machine";
     RepairForm.f_brand := "Philips"; RepairForm.f_model := "";
     RepairForm.f_description := "It no longer heats the water at all." |}.

Definition terse : RepairForm.Fields :=
  {| RepairForm.f_deviceType := Some "Coffee machine";
     RepairForm.f_brand := "Philips"; RepairForm.f_model := "";
     RepairForm.f_description := "Broken." |}.

End Outage.

(* ===================================================================== *)
(** ** The timeslot page over time *)
(* ===================================================================== *)

Module TimeslotPage.

Import Timeslots.

(** What happens to the page: a run of the fetch effect settles, or the
    user picks an entry of the dropdown ([onValueChange]). *)
Inductive Event :=
| Fetched (r : Js.Awaited Response)
| Chose (value : string).

Definition apply (st : State) (e : Event) : State :=
  match e with
  | Fetched r => fetchLocations r st
  | Chose value => setSelectedLocation (Some value) st
  end.

Definition run (events : list Event) : State := fold_left apply events initial.

(** The fetch did not deliver rows: the promise rejected or the response
    carries an error. *)
Definition failed (r : Js.Awaited Response) : bool :=
  match r with
  | Js.Resolved resp => bool_decide (error resp ≠ None)
  | Js.Rejected _ => true
  end.

End TimeslotPage.

(* ===================================================================== *)
(** * Properties *)
(* ===================================================================== *)

(** ** Strings and the file-type pattern *)

Section JsFacts.

Import Js.

Lemma startsWith_refl (p : string) : startsWith p p = true.
Proof.
  induction p as [|a p IH]; simpl; [done|].
  by rewrite Ascii.eqb_refl.
Qed.

Lemma startsWith_app (p s : string) : startsWith p (p +:+ s) = true.
Proof.
  induction p as [|a p IH]; simpl; [done|].
  by rewrite Ascii.eqb_refl.
Qed.

Lemma includes_app_r (p q : string) : includes p (q +:+ p) = true.
Proof.
  induction q as [|a q IH]; simpl.
  - destruct p; simpl; [done|].
    by rewrite Ascii.eqb_refl, startsWith_refl.
  - rewrite IH. apply orb_true_r.
Qed.

(** A trailing [.*] always matches: it may match nothing. *)
Lemma matchHere_lits_dotstar (p s : string) :
  matchHere (lits p ++ [DotStar]) s = startsWith p s.
Proof.
  revert s. induction p as [|a p IH]; intros s; simpl.
  - by destruct s.
  - destruct s as [|b s]; [done|]. by rewrite IH.
Qed.

Lemma reSearch_lits_dotstar (p s : string) :
  reSearch (lits p ++ [DotStar]) s = includes p s.
Proof.
  induction s as [|b s IH].
  - cbn [reSearch includes]. by rewrite matchHere_lits_dotstar.
  - cbn [reSearch includes]. by rewrite matchHere_lits_dotstar, IH.
Qed.

(** [type.match('image.*')] succeeds exactly when the type contains the
    text [image], wherever it stands. *)
Lemma matches_image (t : string) : matches t "image.*" = includes "image" t.
Proof. unfold matches. apply (reSearch_lits_dotstar "image"). Qed.

End JsFacts.

(** ** The schema validators *)

Lemma descriptionIssues_cases (s : string) :
  descriptionIssues s =
    ((if (String.length s <? 20)%nat
      then ["Description must be at least 20 characters"] else []) ++
     (if (500 <? String.length s)%nat
      then ["Description cannot be longer than 500 characters"] else []))%list.
Proof.
  unfold descriptionIssues, Zod.stringIssues, descriptionChecks. simpl.
  by destruct (String.length s <? 20)%nat, (500 <? String.length s)%nat.
Qed.

(** C7.  The description validator accepts a string exactly when its
    length lies in the inclusive interval from 20 to 500; a string of
    length 19 and a string of length 501 are both rejected. *)
Theorem description_accepted_iff_length (s : string) :
  (validDescription s = true ↔ (20 ≤ String.length s ≤ 500)%nat) ∧
  (String.length s = 19 → validDescription s = false) ∧
  (String.length s = 501 → validDescription s = false).
Proof.
  unfold validDescription. rewrite descriptionIssues_cases.
  destruct (Nat.ltb_spec (String.length s) 20) as [Hlo|Hlo];
    destruct (Nat.ltb_spec 500 (String.length s)) as [Hhi|Hhi];
    simpl; repeat split; intros; try done; try lia.
Qed.

Lemma description_accepted_iff_length_witness :
  validDescription (Js.repeat "a" 20) = true ∧
  validDescription (Js.repeat "a" 500) = true ∧
  validDescription (Js.repeat "a" 19) = false ∧
  validDescription (Js.repeat "a" 501) = false.
Proof.
  split; [|split; [|split]].
  - destruct (description_accepted_iff_length (Js.repeat "a" 20)) as [[_ H] _].
    apply H. vm_compute. lia.
  - destruct (description_accepted_iff_length (Js.repeat "a" 500)) as [[_ H] _].
    apply H. vm_compute. lia.
  - destruct (description_accepted_iff_length (Js.repeat "a" 19)) as (_ & H & _).
    apply H. reflexivity.
  - destruct (description_accepted_iff_length (Js.repeat "a" 501)) as (_ & _ & H).
    apply H. reflexivity.
Defined.

(** The options offered by the select control are the literals of the
    schema, in the same order. *)
Lemma deviceTypes_are_enum : deviceTypes = deviceTypeEnum.
Proof. reflexivity. Qed.

(** C8.  The device-type validator accepts an input string exactly when
    it is one of the nine enum literals; every other string is
    rejected. *)
Theorem deviceType_accepted_iff_literal (v : string) :
  validDeviceType (Some v) = true ↔
    v = "Vacuum cleaner" ∨ v = "Coffee machine" ∨ v = "TV" ∨ v = "Radio" ∨
    v = "Lighting" ∨ v = "Fume hood" ∨ v = "Laptop" ∨ v = "Smartphone" ∨
    v = "Other".
Proof.
  unfold validDeviceType, deviceTypeIssues, Zod.enumIssues, deviceTypeEnum.
  case_bool_decide as Hin; simpl.
  - split; [intros _|done].
    repeat (apply elem_of_cons in Hin as [->|Hin]; [tauto|]).
    by apply elem_of_nil in Hin.
  - split; [done|]. intros Hv. exfalso. apply Hin.
    repeat (destruct Hv as [->|Hv]; [set_solver|]). subst. set_solver.
Qed.

Lemma deviceType_accepted_iff_literal_witness :
  validDeviceType (Some "Fume hood") = true ∧
  validDeviceType (Some "Toaster") = false.
Proof.
  split.
  - apply (proj2 (deviceType_accepted_iff_literal "Fume hood")). tauto.
  - destruct (validDeviceType (Some "Toaster")) eqn:E; [|done].
    apply (proj1 (deviceType_accepted_iff_literal "Toaster")) in E.
    repeat (destruct E as [E|E]; [discriminate E|]). discriminate E.
Defined.

(** ** Image attachments *)

Section ImageFacts.

Import Images.

Lemma handleImageChange_fold (fs : list File) (w : World) :
  handleImageChange (Some fs) w = toWorld (fold_left offer fs (ofWorld w)).
Proof. reflexivity. Qed.

Lemma toWorld_ofWorld (w : World) : toWorld (ofWorld w) = w.
Proof. by destruct w. Qed.

Lemma ofWorld_toWorld (l : Locals) : ofWorld (toWorld l) = l.
Proof. by destruct l. Qed.

(** The three outcomes of one loop iteration. *)
Lemma offer_wrong_type (l : Locals) (f : File) :
  Js.includes "image" (file_type f) = false → offer l f = toast invalidFileType l.
Proof. intros H. unfold offer. by rewrite matches_image, H. Qed.

Lemma offer_too_large (l : Locals) (f : File) :
  Js.includes "image" (file_type f) = true →
  (maxFileSize < file_size f)%N →
  offer l f = toast fileTooLarge l.
Proof.
  intros H Hsz. unfold offer. rewrite matches_image, H. simpl.
  by apply N.ltb_lt in Hsz as ->.
Qed.

Lemma offer_accepted (l : Locals) (f : File) :
  Js.includes "image" (file_type f) = true →
  (file_size f ≤ maxFileSize)%N →
  offer l f =
    {| newImages := newImages l ++ [f];
       newImagePreviewUrls := newImagePreviewUrls l ++ [fresh l];
       shown := shown l;
       store := <[fresh l := f]> (store l);
       fresh := N.succ (fresh l) |}.
Proof.
  intros H Hsz. unfold offer. rewrite matches_image, H. simpl.
  by apply N.ltb_ge in Hsz as ->.
Qed.

Lemma offer_cases (l : Locals) (f : File) :
  offer l f = toast invalidFileType l ∨
  offer l f = toast fileTooLarge l ∨
  offer l f =
    {| newImages := newImages l ++ [f];
       newImagePreviewUrls := newImagePreviewUrls l ++ [fresh l];
       shown := shown l;
       store := <[fresh l := f]> (store l);
       fresh := N.succ (fresh l) |}.
Proof.
  unfold offer.
  destruct (Js.matches _ _); simpl; [|by left].
  destruct (_ <? _)%N; [right; by left | right; by right].
Qed.

Lemma aligned_url_old (w : World) (u : N) :
  wellFormed w → u ∈ imagePreviewUrls w → (u < nextUrl w)%N.
Proof.
  intros ([_ Hal] & _ & Hfresh) Hin.
  apply list_elem_of_lookup in Hin as [i Hi].
  destruct (Hal i u Hi) as (f & _ & Hf). apply Hfresh. by exists f.
Qed.

Lemma offer_wellFormed (l : Locals) (f : File) :
  wellFormed (toWorld l) → wellFormed (toWorld (offer l f)).
Proof.
  intros Hwf.
  destruct (offer_cases l f) as [-> | [-> | ->]]; [done | done |].
  pose proof (aligned_url_old _ (fresh l) Hwf) as Hold.
  destruct Hwf as ([Hlen Hal] & Hnd & Hfresh). simpl in *.
  split; [split|split]; simpl.
  - rewrite !length_app. simpl. lia.
  - intros i u Hi. apply lookup_snoc_Some in Hi as [[Hlt Hi] | [Hi <-]].
    + destruct (Hal i u Hi) as (g & Hg & Hb). exists g. split.
      * rewrite lookup_app_l; [done|]. by apply lookup_lt_Some in Hg.
      * rewrite lookup_insert_ne; [done|].
        intros <-. assert (fresh l < fresh l)%N; [|lia].
        apply Hfresh. by exists g.
    + exists f. split.
      * apply list_lookup_middle. lia.
      * apply lookup_insert_eq.
  - apply NoDup_app. split; [done|]. split; [|apply NoDup_singleton].
    intros x Hx Hx'. apply list_elem_of_singleton in Hx' as ->.
    specialize (Hold Hx). lia.
  - intros u Hu. apply lookup_insert_is_Some in Hu as [<- | [_ Hu]]; [lia|].
    specialize (Hfresh u Hu). lia.
Qed.

Lemma handleImageChange_wellFormed (files : option (list File)) (w : World) :
  wellFormed w → wellFormed (handleImageChange files w).
Proof.
  destruct files as [fs|]; [|done].
  rewrite handleImageChange_fold. rewrite <- (toWorld_ofWorld w) at 1.
  generalize (ofWorld w). induction fs as [|f fs IH]; intros l Hwf; [done|].
  simpl. apply IH. by apply offer_wellFormed.
Qed.

Lemma removeImage_wellFormed (index : nat) (w : World) :
  wellFormed w → wellFormed (removeImage index w).
Proof.
  intros ([Hlen Hal] & Hnd & Hfresh).
  split; [split|split]; simpl.
  - rewrite !delete_take_drop, !length_app, !length_take, !length_drop. lia.
  - intros j u Hj.
    assert (∃ j', imagePreviewUrls w !! j' = Some u ∧ j' ≠ index ∧
                  delete index (images w) !! j = images w !! j')
      as (j' & Hj' & Hne & ->).
    { destruct (decide (j < index)) as [Hlt|Hge].
      - exists j. rewrite list_lookup_delete_lt in Hj by done.
        rewrite list_lookup_delete_lt by done. split; [done|]. split; [lia|done].
      - exists (S j). rewrite list_lookup_delete_ge in Hj by lia.
        rewrite list_lookup_delete_ge by lia. split; [done|]. split; [lia|done]. }
    destruct (Hal j' u Hj') as (g & Hg & Hb). exists g. split; [done|].
    destruct (imagePreviewUrls w !! index) as [v|] eqn:Hv; simpl; [|done].
    rewrite lookup_delete_ne; [done|].
    intros ->. apply Hne. by eapply NoDup_lookup.
  - eapply sublist_NoDup; [exact Hnd | apply sublist_delete].
  - intros u Hu. apply Hfresh.
    destruct (imagePreviewUrls w !! index) as [v|]; simpl in Hu; [|done].
    destruct Hu as [g Hg]. apply lookup_delete_Some in Hg as [_ Hg]. by exists g.
Qed.

Lemma run_snoc (ops : list Op) (o : Op) : run (ops ++ [o]) = step (run ops) o.
Proof. unfold run. by rewrite fold_left_app. Qed.

(** Every state the user can reach is well formed. *)
Lemma run_wellFormed (ops : list Op) : wellFormed (run ops).
Proof.
  induction ops as [|o ops IH] using rev_ind.
  - repeat split; simpl; try done.
    + apply NoDup_nil_2.
    + intros u [f Hf]. by rewrite lookup_empty in Hf.
  - rewrite run_snoc. destruct o as [files|index]; simpl.
    + by apply handleImageChange_wellFormed.
    + by apply removeImage_wellFormed.
Qed.

End ImageFacts.

Section ImageClaims.

Import Images.

(** What a call of [handleImageChange] adds: the files that pass both
    checks, in order, one URL for each, and the notices of the others. *)
Lemma fold_offer_lists (fs : list File) (l : Locals) :
  let l' := fold_left offer fs l in
  newImages l' = newImages l ++ List.filter accepted fs ∧
  shown l' = shown l ++ List.concat (map notice fs) ∧
  List.length (newImagePreviewUrls l') =
    List.length (newImagePreviewUrls l) + List.length (List.filter accepted fs).
Proof.
  revert l. induction fs as [|f fs IH]; intros l; simpl.
  - rewrite !app_nil_r. repeat split; lia.
  - destruct (IH (offer l f)) as (Hi & Ht & Hu). simpl in *.
    rewrite Hi, Ht, Hu. unfold offer, accepted, notice.
    destruct (Js.matches _ _); simpl;
      [destruct (_ <? _)%N; simpl|];
      rewrite <- ?app_assoc, ?length_app; simpl; repeat split; lia.
Qed.

(** A file of a type without the text [image] is turned away with the
    type notice, a file over 5MB that got past the type check with the
    size notice; neither list grows. *)
Lemma rejected_file_not_added (f : File) (w : World) :
  accepted f = false →
  images (handleImageChange (Some [f]) w) = images w ∧
  imagePreviewUrls (handleImageChange (Some [f]) w) = imagePreviewUrls w ∧
  toasts (handleImageChange (Some [f]) w) = toasts w ++ notice f ∧
  (notice f = [invalidFileType] ∨ notice f = [fileTooLarge]).
Proof.
  unfold accepted, notice. simpl. unfold offer.
  destruct (Js.matches _ _); simpl; [destruct (_ <? _)%N; simpl|];
    try discriminate; intros _; repeat split; auto.
Qed.

(** C9, evaluated.  The type check searches the MIME type for the text
    [image] anywhere, so a disk image of type [application/x-cd-image],
    which is no image type, passes it: the file is added to both lists
    and no notice is shown. *)
Theorem disk_image_passes_type_check :
  let f := {| file_name := "backup.iso";
              file_type := "application/x-cd-image";
              file_size := 1000 |} in
  let w := handleImageChange (Some [f]) initial in
  isImageType f = false ∧
  images w = [f] ∧ imagePreviewUrls w = [0%N] ∧ toasts w = [] ∧
  blobs w !! 0%N = Some f.
Proof. repeat split. Qed.

(** C10.  After every image operation the two lists have the same length
    and the URL at each index is the live object URL of the file at the
    same index; removing a valid index [i] deletes the [i]-th element of
    each list, keeps the others in order, and revokes the removed URL
    only. *)
Theorem previews_follow_images (ops : list Op) (o : Op) :
  let w := step (run ops) o in
  aligned w ∧
  ∀ i : nat, i < List.length (images w) →
    ∃ f u, images w !! i = Some f ∧ imagePreviewUrls w !! i = Some u ∧
      images (removeImage i w) = take i (images w) ++ drop (S i) (images w) ∧
      imagePreviewUrls (removeImage i w) =
        take i (imagePreviewUrls w) ++ drop (S i) (imagePreviewUrls w) ∧
      blobs (removeImage i w) !! u = None ∧
      ∀ v, v ≠ u → blobs (removeImage i w) !! v = blobs w !! v.
Proof.
  intros w. subst w. rewrite <- run_snoc.
  destruct (run_wellFormed (ops ++ [o])) as ([Hlen Hal] & _ & _).
  split; [by split|]. intros i Hi.
  destruct (lookup_lt_is_Some_2 (images (run (ops ++ [o]))) i Hi) as [f Hf].
  rewrite Hlen in Hi.
  destruct (lookup_lt_is_Some_2 _ i Hi) as [u Hu].
  exists f, u. simpl. rewrite Hu. simpl.
  rewrite <- !delete_take_drop.
  repeat split; try done.
  - apply lookup_delete_eq.
  - intros v Hv. by apply lookup_delete_ne.
Qed.

Lemma previews_follow_images_witness :
  let a := {| file_name := "front.png"; file_type := "image/png";
              file_size := 204800 |} in
  let b := {| file_name := "back.jpg"; file_type := "image/jpeg";
              file_size := 5242880 |} in
  let w := step (run [Add (Some [a])]) (Add (Some [b])) in
  images (removeImage 0 w) = [b] ∧ imagePreviewUrls (removeImage 0 w) = [1%N].
Proof.
  intros a b w.
  destruct (previews_follow_images [Add (Some [a])] (Add (Some [b])))
    as [_ H].
  destruct (H 0) as (f & u & _ & _ & Hi & Hu & _).
  - vm_compute. lia.
  - fold w in Hi, Hu. rewrite Hi, Hu. split; reflexivity.
Defined.

End ImageClaims.

(** ** The submission sequence *)

Section SubmitClaims.

Import Submit.

(** Run the handler symbolically: unfold the statements down to the
    backend's answers. *)
Ltac exec :=
  unfold issued, notices, submit, onSubmit, tryCatchFinally, submitBody,
    member, await, setIsSubmitting, consoleWrite, toast, setItem, navigate,
    throw, return_, modify, mbind, M_bind, mret, M_ret; cbn.

(** Read off what a run appended to a log. *)
Ltac appended := rewrite <- ?app_assoc; rewrite ?drop_app_length; cbn.

Lemma response_eta (r : Response) (d : option string) :
  data r = d → error r = None → r = {| data := d; error := None |}.
Proof. destruct r; simpl; by intros -> ->. Qed.

(** The calls of a run, whatever the backend answers: the user is
    fetched first; a product insert follows only for a signed-in user,
    and a repair-request insert only after a product insert that
    returned an identifier. *)
Lemma issued_cases (be : Backend) (values : FormValues) (w : World) :
  issued be values w = [GetUser] ∨
  (∃ user, getUser be = Js.Resolved (Some user) ∧
     ¬ (∃ i, succeeded (insertProduct be (productRow user values)) i) ∧
     issued be values w = [GetUser; InsertProduct (productRow user values)]) ∨
  (∃ user i, getUser be = Js.Resolved (Some user) ∧
     succeeded (insertProduct be (productRow user values)) i ∧
     issued be values w =
       [GetUser; InsertProduct (productRow user values);
        InsertRepairRequest (repairRow user i values)]).
Proof.
  exec.
  destruct (getUser be) as [[user|]|e] eqn:Hu; cbn;
    [|left; by appended..].
  right.
  destruct (insertProduct be (productRow user values)) as [[d [msg|]]|e]
    eqn:Hp; cbn.
  - left. exists user. split; [done|]. split; [|by appended].
    intros [i Hi]. unfold succeeded in Hi. congruence.
  - destruct d as [i|]; cbn.
    + right. exists user, i. split; [done|]. split; [done|].
      destruct (insertRepairRequest be _) as [[d' [msg'|]]|e']; cbn;
        [by appended| |by appended].
      destruct d'; cbn; by appended.
    + left. exists user. split; [done|]. split; [|by appended].
      intros [i Hi]. unfold succeeded in Hi. congruence.
  - left. exists user. split; [done|]. split; [|by appended].
    intros [i Hi]. unfold succeeded in Hi. congruence.
Qed.

(** A run only appends to the call log and to the notices, so [issued]
    and [notices] are all it added. *)
Lemma submit_appends (be : Backend) (values : FormValues) (w : World) :
  calls (submit be values w) = calls w ++ issued be values w ∧
  toasts (submit be values w) = toasts w ++ notices be values w.
Proof.
  exec.
  destruct (getUser be) as [[user|]|e]; cbn; [|by appended..].
  destruct (insertProduct be _) as [[[i|] [msg|]]|e]; cbn; try by appended.
  destruct (insertRepairRequest be _) as [[[j|] [msg'|]]|e']; cbn; by appended.
Qed.

Lemma failed_not_succeeded (p : Js.Awaited Response) (i : string) :
  failed p → ¬ succeeded p i.
Proof.
  unfold failed, succeeded. intros Hf ->. simpl in Hf. by destruct Hf.
Qed.

(** C2.  When the product insert fails, the run issues the user fetch and
    the product insert and nothing else; and whenever a run issues a
    repair-request insert, it comes right after a product insert that
    succeeded, and its row references the identifier that insert
    returned. *)
Theorem repair_insert_needs_product (be : Backend) (values : FormValues)
    (w : World) :
  (∀ user, getUser be = Js.Resolved (Some user) →
     failed (insertProduct be (productRow user values)) →
     issued be values w = [GetUser; InsertProduct (productRow user values)] ∧
     ∀ row, InsertRepairRequest row ∉ issued be values w) ∧
  (∀ row, InsertRepairRequest row ∈ issued be values w →
     ∃ user i, getUser be = Js.Resolved (Some user) ∧
       succeeded (insertProduct be (productRow user values)) i ∧
       r_product_id row = i ∧
       issued be values w =
         [GetUser; InsertProduct (productRow user values);
          InsertRepairRequest row]).
Proof.
  split.
  - intros user Hu Hfail.
    destruct (issued_cases be values w)
      as [Hc | [(user' & Hu' & _ & Hc) | (user' & i & Hu' & Hs & _)]].
    + exfalso. revert Hc. exec. rewrite Hu. cbn.
      destruct (insertProduct be _) as [[d [msg|]]|e]; cbn;
        [| destruct d; cbn; [destruct (insertRepairRequest be _) as [[d' [m'|]]|e'];
                              cbn; [| destruct d'; cbn|] |] |];
        appended; discriminate.
    + assert (user' = user) as -> by congruence.
      rewrite Hc. split; [done|]. intros row Hin.
      repeat (apply elem_of_cons in Hin as [Hin|Hin]; [discriminate Hin|]).
      by apply elem_of_nil in Hin.
    + assert (user' = user) as -> by congruence.
      by destruct (failed_not_succeeded _ i Hfail).
  - intros row Hin.
    destruct (issued_cases be values w)
      as [Hc | [(user & Hu & _ & Hc) | (user & i & Hu & Hs & Hc)]];
      rewrite Hc in Hin.
    + apply list_elem_of_singleton in Hin. discriminate Hin.
    + repeat (apply elem_of_cons in Hin as [Hin|Hin]; [discriminate Hin|]).
      by apply elem_of_nil in Hin.
    + repeat (apply elem_of_cons in Hin as [Hin|Hin];
                [try discriminate Hin|]);
        [|by apply elem_of_nil in Hin].
      injection Hin as ->. exists user, i. by rewrite Hc.
Qed.

Lemma repair_insert_needs_product_witness :
  let row := repairRow Scenario.alice "product-7" Scenario.kettle in
  (issued Scenario.productRefused Scenario.kettle initial =
     [GetUser; InsertProduct (productRow Scenario.alice Scenario.kettle)] ∧
   ∀ row', InsertRepairRequest row' ∉
     issued Scenario.productRefused Scenario.kettle initial) ∧
  ∃ user i, getUser Scenario.online = Js.Resolved (Some user) ∧
    succeeded (insertProduct Scenario.online (productRow user Scenario.kettle)) i ∧
    r_product_id row = i ∧
    issued Scenario.online Scenario.kettle initial =
      [GetUser; InsertProduct (productRow user Scenario.kettle);
       InsertRepairRequest row].
Proof.
  intros row. split.
  - apply (proj1 (repair_insert_needs_product Scenario.productRefused
                    Scenario.kettle initial) Scenario.alice).
    + reflexivity.
    + simpl. by eexists.
  - apply (proj2 (repair_insert_needs_product Scenario.online
                    Scenario.kettle initial) row).
    vm_compute. apply list_elem_of_In. simpl. tauto.
Defined.

(** C3.  When no user is signed in, the run issues the user fetch only
    (no insert into either table), shows the destructive
    [Authentication required] notice and nothing else, and returns from
    the handler with [isSubmitting] false; session storage and the router
    are untouched. *)
Theorem signed_out_submit_aborts (be : Backend) (values : FormValues)
    (w : World) :
  getUser be = Js.Resolved None →
  issued be values w = [GetUser] ∧
  notices be values w =
    [ {| Ui.title := "Authentication required";
         Ui.description := "Please sign in to submit a repair request.";
         Ui.variant := Ui.Destructive |} ] ∧
  fst (onSubmit be values w) = Return ∧
  isSubmitting (submit be values w) = false ∧
  sessionStorage (submit be values w) = sessionStorage w ∧
  navigations (submit be values w) = navigations w.
Proof.
  intros Hu. exec. rewrite Hu. cbn. by appended.
Qed.

Lemma signed_out_submit_aborts_witness :
  issued Scenario.signedOut Scenario.kettle initial = [GetUser] ∧
  isSubmitting (submit Scenario.signedOut Scenario.kettle initial) = false.
Proof.
  destruct (signed_out_submit_aborts Scenario.signedOut Scenario.kettle initial)
    as (Hc & _ & _ & Hs & _); [reflexivity|].
  by split.
Defined.

(** C4.  When both inserts succeed, the run stores the identifier that
    the repair-request insert returned under the session-storage key
    [repairRequestId], and its one navigation goes to
    [/repair-request-timeslots]. *)
Theorem successful_submit_stores_id (be : Backend) (values : FormValues)
    (w : World) (user : User) (product_id repair_id : string) :
  getUser be = Js.Resolved (Some user) →
  succeeded (insertProduct be (productRow user values)) product_id →
  succeeded (insertRepairRequest be (repairRow user product_id values)) repair_id →
  sessionStorage (submit be values w) !! "repairRequestId" = Some repair_id ∧
  sessionStorage (submit be values w) =
    <["repairRequestId" := repair_id]> (sessionStorage w) ∧
  navigations (submit be values w) =
    navigations w ++ ["/repair-request-timeslots"] ∧
  fst (onSubmit be values w) = Normal tt ∧
  isSubmitting (submit be values w) = false.
Proof.
  unfold succeeded. intros Hu Hp Hr. exec. rewrite Hu. cbn.
  rewrite Hp. cbn. rewrite Hr. cbn.
  split; [apply lookup_insert_eq | done].
Qed.

Lemma successful_submit_stores_id_witness :
  sessionStorage (submit Scenario.online Scenario.kettle initial)
    !! "repairRequestId" = Some "repair-9" ∧
  navigations (submit Scenario.online Scenario.kettle initial) =
    ["/repair-request-timeslots"].
Proof.
  destruct (successful_submit_stores_id Scenario.online Scenario.kettle initial
              Scenario.alice "product-7" "repair-9")
    as (Hs & _ & Hn & _); [reflexivity..|].
  by split.
Defined.

(** C6.  A product insert that returns an error ends in one destructive
    notice whose description is [Failed to create product: ] followed by
    the backend's own message, so the message is carried in it; a
    repair-request insert that returns an error ends in one destructive
    notice with the fixed description [Failed to create repair request],
    whatever the backend's message was. *)
Theorem insert_failure_notices (be : Backend) (values : FormValues)
    (w : World) (user : User) :
  getUser be = Js.Resolved (Some user) →
  (∀ r message,
     insertProduct be (productRow user values) = Js.Resolved r →
     error r = Some message →
     notices be values w =
       [ {| Ui.title := "Submission failed";
            Ui.description := "Failed to create product: " +:+ message;
            Ui.variant := Ui.Destructive |} ] ∧
     Js.includes message ("Failed to create product: " +:+ message) = true) ∧
  (∀ product_id r message,
     succeeded (insertProduct be (productRow user values)) product_id →
     insertRepairRequest be (repairRow user product_id values) = Js.Resolved r →
     error r = Some message →
     notices be values w =
       [ {| Ui.title := "Submission failed";
            Ui.description := "Failed to create repair request";
            Ui.variant := Ui.Destructive |} ]).
Proof.
  intros Hu. split.
  - intros r message Hp He. split; [|apply includes_app_r].
    exec. rewrite Hu. cbn. rewrite Hp. cbn. rewrite He. cbn. by appended.
  - unfold succeeded. intros product_id r message Hp Hr He.
    exec. rewrite Hu. cbn. rewrite Hp. cbn. rewrite Hr. cbn. rewrite He. cbn.
    by appended.
Qed.

Lemma insert_failure_notices_witness :
  Ui.description <$> notices Scenario.productRefused Scenario.kettle initial =
    ["Failed to create product: permission denied"] ∧
  Ui.description <$> notices Scenario.repairRefused Scenario.kettle initial =
    ["Failed to create repair request"].
Proof.
  split.
  - destruct (insert_failure_notices Scenario.productRefused Scenario.kettle
                initial Scenario.alice) as [H _]; [reflexivity|].
    destruct (H {| data := None; error := Some "permission denied" |}
                "permission denied") as [-> _]; reflexivity.
  - destruct (insert_failure_notices Scenario.repairRefused Scenario.kettle
                initial Scenario.alice) as [_ H]; [reflexivity|].
    rewrite (H "product-7" {| data := None; error := Some "permission denied" |}
               "permission denied"); reflexivity.
Defined.

End SubmitClaims.

(** ** The auth modal *)

Section AuthClaims.

Import Auth.



(** C5.  The step starts as [login] for type [login] and as [register]
    for the types [repair] and [help]; and whenever a modal that was
    closed is rendered open, its step becomes the initial step of the
    type it is opened with, whatever step it was in. *)
Theorem modal_opens_in_initial_step :
  (initialStep TypeLogin = StepLogin ∧
   initialStep TypeRepair = StepRegister ∧
   initialStep TypeHelp = StepRegister) ∧
  (∀ p : Props, step (mount p) = initialStep (type p)) ∧
  (∀ (m : Modal) (t : AuthType),
     fst (deps m) = false →
     step (render {| isOpen := true; type := t |} m) = initialStep t).
Proof.
  split; [done|]. split.
  - intros [[] t]; reflexivity.
  - intros [s e [o t']] t Hclosed. simpl in Hclosed. subst o.
    unfold render.
    destruct (decide _) as [Heq|_]; [simpl in Heq; congruence | reflexivity].
Qed.

Lemma modal_opens_in_initial_step_witness :
  let opened := mount {| isOpen := true; type := TypeRepair |} in
  let verifying := handleRegisterSuccess "ann@example.org" opened in
  let closed := render {| isOpen := false; type := TypeRepair |} verifying in
  step closed = StepVerify ∧
  step (render {| isOpen := true; type := TypeRepair |} closed) = StepRegister ∧
  step (render {| isOpen := true; type := TypeLogin |} closed) = StepLogin.
Proof.
  intros opened verifying closed.
  destruct modal_opens_in_initial_step as (_ & _ & H).
  split; [reflexivity|]. split.
  - rewrite (H closed TypeRepair); reflexivity.
  - rewrite (H closed TypeLogin); reflexivity.
Defined.

(** The redirect rule: a path under the root that does not mention
    [/dashboard] stays where it is. *)
Lemma redirect_stays (currentPath : string) (t : AuthType) :
  Js.startsWith "/" currentPath = true →
  (1 < String.length currentPath)%nat →
  Js.includes "/dashboard" currentPath = false →
  redirect currentPath t = None.
Proof.
  intros Hs Hl Hd. unfold redirect. rewrite Hs, Hd.
  by apply Nat.ltb_lt in Hl as ->.
Qed.

(** Otherwise the type decides. *)
Lemma redirect_by_type (currentPath : string) (t : AuthType) :
  (String.length currentPath ≤ 1)%nat ∨
    Js.includes "/dashboard" currentPath = true →
  redirect currentPath t =
    match t with
    | TypeRepair => Some "/new-repair-request"
    | TypeHelp => Some "/repair-requests"
    | TypeLogin => None
    end.
Proof.
  intros H. unfold redirect.
  assert ((1 <? String.length currentPath)%nat
          && negb (Js.includes "/dashboard" currentPath) = false) as Hc.
  { destruct H as [H|H].
    - by apply Nat.ltb_ge in H as ->.
    - rewrite H. apply andb_false_r. }
  rewrite <- andb_assoc, Hc, andb_false_r. by destruct t.
Qed.

Lemma redirect_table :
  redirect "/device/42" TypeRepair = None ∧
  redirect "/" TypeRepair = Some "/new-repair-request" ∧
  redirect "/dashboard" TypeHelp = Some "/repair-requests".
Proof. repeat split. Qed.

(** After a verification with a session, the only change of location is
    the one the redirect rule asks for. *)
Lemma verification_navLog (currentPath : string) (t : AuthType) :
  navLog (verification currentPath t
            (Js.Resolved {| session := true; sessionError := None |})) =
    match redirect currentPath t with
    | Some href => [LocationAssign href]
    | None => []
    end.
Proof.
  unfold verification, runAsync, handleVerificationSuccess, afterSession,
    applyRedirect. simpl.
  by destruct (redirect currentPath t).
Qed.

(** After a login with a session, the form's own [navigate("/dashboard")]
    comes first, whatever the redirect rule says. *)
Lemma login_navLog (currentPath : string) (t : AuthType) (values : Credentials) :
  navLog (login currentPath t values
            (Js.Resolved {| signInError := None |})
            (Js.Resolved {| session := true; sessionError := None |})) =
    RouterNavigate "/dashboard" ::
    match redirect currentPath t with
    | Some href => [LocationAssign href]
    | None => []
    end.
Proof.
  unfold login, onSubmit, handleLoginSuccess, afterSession, applyRedirect.
  simpl. by destruct (redirect currentPath t).
Qed.

(** C1, evaluated.  On [/device/42] with type [repair] the redirect rule
    says to stay, and a verification does stay; a login through the form
    does not: it sends the router to [/dashboard]. *)
Theorem login_on_detail_page_goes_to_dashboard :
  let ok := Js.Resolved {| session := true; sessionError := None |} in
  let values := {| cred_email := "ann@example.org"; cred_password := "secret1" |} in
  redirect "/device/42" TypeRepair = None ∧
  navLog (verification "/device/42" TypeRepair ok) = [] ∧
  navLog (login "/device/42" TypeRepair values
            (Js.Resolved {| signInError := None |}) ok) =
    [RouterNavigate "/dashboard"].
Proof. repeat split. Qed.

End AuthClaims.

(* ===================================================================== *)
(** * Further properties *)
(* ===================================================================== *)

(** ** The submission sequence, over every answer of the backend *)

Section SubmitOutcomes.

Import Submit.

Ltac exec :=
  unfold issued, notices, submit, onSubmit, tryCatchFinally, submitBody,
    member, await, setIsSubmitting, consoleWrite, toast, setItem, navigate,
    throw, return_, modify, mbind, M_bind, mret, M_ret; cbn.

Ltac appended := rewrite <- ?app_assoc; rewrite ?drop_app_length; cbn.

(** Split on what each awaited call settled to, keeping the equations. *)
Ltac answers be :=
  destruct (getUser be) as [[user|]|e0] eqn:Hu; cbn;
  try (match goal with
       | |- context [insertProduct be ?row] =>
           destruct (insertProduct be row) as [[[i|] [msg|]]|e1] eqn:Hp; cbn
       end);
  try (match goal with
       | |- context [insertRepairRequest be ?row] =>
           destruct (insertRepairRequest be row) as [[[j|] [msg'|]]|e2] eqn:Hr;
           cbn
       end).

(** X1.  Whatever the backend answers, the handler ends with
    [isSubmitting] false and never lets an exception escape. *)
Theorem submit_always_reenables (be : Backend) (values : FormValues)
    (w : World) :
  isSubmitting (submit be values w) = false ∧
  ∀ e, fst (onSubmit be values w) ≠ Throw e.
Proof. exec. answers be; by split. Qed.

(** X2.  A run is all or nothing towards the next page.  Either both
    inserts succeeded, and it shows the one [Repair request created]
    notice, stores the identifier and navigates; or it shows exactly one
    destructive notice and leaves session storage and the router as they
    were. *)
Theorem submit_all_or_nothing (be : Backend) (values : FormValues)
    (w : World) :
  (∃ user i j,
     getUser be = Js.Resolved (Some user) ∧
     succeeded (insertProduct be (productRow user values)) i ∧
     succeeded (insertRepairRequest be (repairRow user i values)) j ∧
     notices be values w = [repairRequestCreated] ∧
     sessionStorage (submit be values w) =
       <["repairRequestId" := j]> (sessionStorage w) ∧
     navigations (submit be values w) =
       navigations w ++ ["/repair-request-timeslots"]) ∨
  (∃ t, notices be values w = [t] ∧
     Ui.variant t = Ui.Destructive ∧
     sessionStorage (submit be values w) = sessionStorage w ∧
     navigations (submit be values w) = navigations w).
Proof.
  exec. answers be;
    try (right; eexists; appended; by repeat split).
  left. exists user, i, j. appended. by repeat split.
Qed.

(** X3.  A remote call whose promise rejects ends the run at that call,
    and the rejection is what the one notice reports: the message of an
    [Error], the fixed fallback text for any other thrown value. *)
Theorem rejected_call_is_reported (be : Backend) (values : FormValues)
    (w : World) (e : Js.Thrown) :
  (getUser be = Js.Rejected e →
     issued be values w = [GetUser] ∧
     notices be values w = [submissionFailed e]) ∧
  (∀ user, getUser be = Js.Resolved (Some user) →
     insertProduct be (productRow user values) = Js.Rejected e →
     issued be values w = [GetUser; InsertProduct (productRow user values)] ∧
     notices be values w = [submissionFailed e]) ∧
  (∀ user i, getUser be = Js.Resolved (Some user) →
     succeeded (insertProduct be (productRow user values)) i →
     insertRepairRequest be (repairRow user i values) = Js.Rejected e →
     issued be values w =
       [GetUser; InsertProduct (productRow user values);
        InsertRepairRequest (repairRow user i values)] ∧
     notices be values w = [submissionFailed e]).
Proof.
  unfold succeeded. split; [|split].
  - intros Hu. exec. rewrite Hu. cbn. by appended.
  - intros user Hu Hp. exec. rewrite Hu. cbn. rewrite Hp. cbn. by appended.
  - intros user i Hu Hp Hr. exec. rewrite Hu. cbn. rewrite Hp. cbn.
    rewrite Hr. cbn. by appended.
Qed.

Lemma rejected_call_is_reported_witness :
  Ui.description <$> notices Outage.unreachable Scenario.kettle initial =
    ["Failed to fetch"] ∧
  Ui.description <$> notices Outage.productThrows Scenario.kettle initial =
    ["There was a problem submitting your repair request. Please try again."] ∧
  issued Outage.repairThrows Scenario.kettle initial =
    [GetUser; InsertProduct (productRow Scenario.alice Scenario.kettle);
     InsertRepairRequest (repairRow Scenario.alice "product-7" Scenario.kettle)].
Proof.
  split; [|split].
  - destruct (rejected_call_is_reported Outage.unreachable Scenario.kettle
                initial (Js.ThrownError "Failed to fetch")) as (H & _ & _).
    destruct H as [_ ->]; reflexivity.
  - destruct (rejected_call_is_reported Outage.productThrows Scenario.kettle
                initial Js.ThrownOther) as (_ & H & _).
    destruct (H Scenario.alice) as [_ ->]; reflexivity.
  - destruct (rejected_call_is_reported Outage.repairThrows Scenario.kettle
                initial (Js.ThrownError "Failed to fetch")) as (_ & _ & H).
    destruct (H Scenario.alice "product-7") as [-> _]; reflexivity.
Defined.

(** The rows of a run, read off the calls it issued. *)
Lemma issued_rows (be : Backend) (values : FormValues)
    (w : World) :
  (∀ row, InsertProduct row ∈ issued be values w →
     ∃ user, getUser be = Js.Resolved (Some user) ∧
       p_user_id row = id user ∧
       p_type row = deviceType values ∧
       p_status row = "broken" ∧
       p_brand row ≠ Some "" ∧ p_model row ≠ Some "" ∧
       (∀ b, b ≠ "" → brand values = Some b → p_brand row = Some b) ∧
       (∀ m, m ≠ "" → model values = Some m → p_model row = Some m)) ∧
  (∀ row, InsertRepairRequest row ∈ issued be values w →
     ∃ user, getUser be = Js.Resolved (Some user) ∧
       r_user_id row = id user ∧
       r_description row = description values ∧
       r_status row = "created").
Proof.
  assert (∀ v, orNull v ≠ Some "") as Hnull.
  { intros [[|a s]|]; simpl; congruence. }
  assert (∀ v b, b ≠ "" → v = Some b → orNull v = Some b) as Hkeep.
  { intros v [|a s] Hb ->; [done|reflexivity]. }
  split; intros row Hin; exec; revert Hin; exec; answers be; appended;
    intros Hin;
    repeat (apply elem_of_cons in Hin as [Hin|Hin];
              [try discriminate Hin|]);
    try (by apply elem_of_nil in Hin);
    injection Hin as ->; exists user; simpl; repeat split; eauto.
Qed.



(** X5.  There is no compensation: when the product insert succeeded and
    the repair-request insert then fails, the run has issued both inserts
    and nothing after them, so the product row stays without a repair
    request; session storage and the router are untouched. *)
Theorem failed_repair_leaves_product (be : Backend) (values : FormValues)
    (w : World) (user : User) (i : string) :
  getUser be = Js.Resolved (Some user) →
  succeeded (insertProduct be (productRow user values)) i →
  failed (insertRepairRequest be (repairRow user i values)) →
  issued be values w =
    [GetUser; InsertProduct (productRow user values);
     InsertRepairRequest (repairRow user i values)] ∧
  sessionStorage (submit be values w) = sessionStorage w ∧
  navigations (submit be values w) = navigations w.
Proof.
  unfold succeeded, failed. intros Hu Hp Hf. exec. rewrite Hu. cbn.
  rewrite Hp. cbn.
  destruct (insertRepairRequest be _) as [[d [msg|]]|e]; cbn.
  - by appended.
  - simpl in Hf. by destruct Hf.
  - by appended.
Qed.

Lemma failed_repair_leaves_product_witness :
  issued Scenario.repairRefused Scenario.kettle initial =
    [GetUser; InsertProduct (productRow Scenario.alice Scenario.kettle);
     InsertRepairRequest (repairRow Scenario.alice "product-7" Scenario.kettle)] ∧
  sessionStorage (submit Scenario.repairRefused Scenario.kettle initial) = ∅.
Proof.
  destruct (failed_repair_leaves_product Scenario.repairRefused Scenario.kettle
              initial Scenario.alice "product-7") as (Hc & Hs & _).
  - reflexivity.
  - reflexivity.
  - simpl. by eexists.
  - split; [exact Hc | exact Hs].
Defined.

(** X6.  Through the form, the backend only ever receives validated
    values: a product row carries one of the nine device types and a
    repair-request row a description of 20 to 500 characters; a form that
    fails either check changes nothing and issues no call. *)
Theorem form_sends_only_valid_values (be : Backend) (f : RepairForm.Fields)
    (w : World) :
  (∀ row, InsertProduct row ∈ RepairForm.issued be f w →
     p_type row ∈ deviceTypeEnum) ∧
  (∀ row, InsertRepairRequest row ∈ RepairForm.issued be f w →
     (20 ≤ String.length (r_description row) ≤ 500)%nat) ∧
  (validDeviceType (RepairForm.f_deviceType f) = false ∨
   validDescription (RepairForm.f_description f) = false →
     RepairForm.handleSubmit be f w = w ∧ RepairForm.issued be f w = []).
Proof.
  unfold RepairForm.issued, RepairForm.handleSubmit, RepairForm.resolve.
  destruct (RepairForm.f_deviceType f) as [v|] eqn:Hv;
    [destruct (validDeviceType (Some v)) eqn:Hd;
     [destruct (validDescription _) eqn:Hs|] |];
    simpl; rewrite ?drop_all;
    try (split; [|split];
         [ intros row Hin; by apply elem_of_nil in Hin
         | intros row Hin; by apply elem_of_nil in Hin
         | done ]).
  split; [|split].
  - intros row Hin. apply issued_rows in Hin as (_ & _ & _ & -> & _).
    simpl. unfold validDeviceType, deviceTypeIssues, Zod.enumIssues in Hd.
    by case_bool_decide.
  - intros row Hin. apply issued_rows in Hin as (_ & _ & _ & -> & _).
    simpl. unfold validDescription in Hs.
    rewrite descriptionIssues_cases in Hs.
    destruct (Nat.ltb_spec (String.length (RepairForm.f_description f)) 20);
      destruct (Nat.ltb_spec 500 (String.length (RepairForm.f_description f)));
      simpl in Hs; try discriminate. lia.
  - intros [?|?]; discriminate.
Qed.

Lemma form_sends_only_valid_values_witness :
  p_type (productRow Scenario.alice Scenario.kettle) ∈ deviceTypeEnum ∧
  RepairForm.handleSubmit Scenario.online Outage.terse initial = initial ∧
  RepairForm.handleSubmit Scenario.online RepairForm.defaultValues initial
    = initial.
Proof.
  split; [|split].
  - destruct (form_sends_only_valid_values Scenario.online Outage.filled initial)
      as (H & _ & _).
    apply (H (productRow Scenario.alice Scenario.kettle)).
    vm_compute. apply list_elem_of_In. simpl. tauto.
  - destruct (form_sends_only_valid_values Scenario.online Outage.terse initial)
      as (_ & _ & H).
    apply H. right. reflexivity.
  - destruct (form_sends_only_valid_values Scenario.online
                RepairForm.defaultValues initial) as (_ & _ & H).
    apply H. left. reflexivity.
Defined.

End SubmitOutcomes.

(** ** Image attachments: batches, removal and the blob-URL store *)

Section ImageStoreFacts.

Import Images.

Lemma startsWith_split (p s : string) :
  Js.startsWith p s = true → ∃ r, s = p +:+ r.
Proof.
  revert s. induction p as [|a p IH]; intros s H; simpl in *.
  - by exists s.
  - destruct s as [|b s]; [done|].
    destruct (Ascii.eqb_spec a b) as [->|]; [|done].
    destruct (IH s H) as [r ->]. by exists r.
Qed.

(** Every type of the [image/] family passes the type check. *)
Lemma image_family_matches (t : string) :
  Js.startsWith "image/" t = true → Js.matches t "image.*" = true.
Proof.
  intros H. rewrite matches_image.
  destruct (startsWith_split _ _ H) as [r ->]. reflexivity.
Qed.

Lemma list_delete_ge {A} (l : list A) (i : nat) :
  (List.length l ≤ i)%nat → delete i l = l.
Proof.
  intros H. rewrite delete_take_drop, take_ge, drop_ge, app_nil_r by lia. done.
Qed.

Lemma elem_of_delete_other {A} (l : list A) (i : nat) (u v : A) :
  u ∈ l → l !! i = Some v → u ≠ v → u ∈ delete i l.
Proof.
  intros Hu Hi Hne. apply list_elem_of_lookup in Hu as [j Hj].
  assert (j ≠ i) as Hji by (intros ->; congruence).
  apply list_elem_of_lookup.
  destruct (decide (j < i)) as [Hlt|Hge].
  - exists j. by rewrite list_lookup_delete_lt.
  - exists (j - 1). rewrite list_lookup_delete_ge by lia.
    by replace (S (j - 1)) with j by lia.
Qed.

Lemma offer_tracked (l : Locals) (f : File) :
  ImageStore.tracked (toWorld l) → ImageStore.tracked (toWorld (offer l f)).
Proof.
  intros Ht.
  destruct (offer_cases l f) as [-> | [-> | ->]]; [done | done |].
  intros u Hu. simpl in *. apply elem_of_app.
  apply lookup_insert_is_Some in Hu as [<- | [_ Hu]].
  - right. apply list_elem_of_singleton. done.
  - left. by apply Ht.
Qed.

Lemma handleImageChange_tracked (files : option (list File)) (w : World) :
  ImageStore.tracked w → ImageStore.tracked (handleImageChange files w).
Proof.
  destruct files as [fs|]; [|done].
  rewrite handleImageChange_fold. rewrite <- (toWorld_ofWorld w) at 1.
  generalize (ofWorld w). induction fs as [|f fs IH]; intros l Ht; [done|].
  simpl. apply IH. by apply offer_tracked.
Qed.

Lemma removeImage_tracked (index : nat) (w : World) :
  ImageStore.tracked w → ImageStore.tracked (removeImage index w).
Proof.
  intros Ht u Hu. simpl in *.
  destruct (imagePreviewUrls w !! index) as [v|] eqn:Hv; simpl in Hu.
  - destruct Hu as [g Hg]. apply lookup_delete_Some in Hg as [Hne Hg].
    eapply elem_of_delete_other; [|exact Hv|done].
    apply Ht. by exists g.
  - rewrite list_delete_ge; [by apply Ht|]. by apply lookup_ge_None.
Qed.

Lemma run_tracked (ops : list Op) : ImageStore.tracked (run ops).
Proof.
  induction ops as [|o ops IH] using rev_ind.
  - intros u [f Hf]. simpl in Hf. by rewrite lookup_empty in Hf.
  - rewrite run_snoc. destruct o as [files|index]; simpl.
    + by apply handleImageChange_tracked.
    + by apply removeImage_tracked.
Qed.

(** X7.  In every state the user can reach, the browser's store holds
    exactly the URLs of the previews on screen, each once: no preview
    shares a URL with another, every preview's URL is live, and no URL
    stays in the store after its preview is gone. *)
Theorem store_holds_exactly_the_previews (ops : list Op) :
  NoDup (imagePreviewUrls (run ops)) ∧
  ∀ u, u ∈ imagePreviewUrls (run ops) ↔ is_Some (blobs (run ops) !! u).
Proof.
  destruct (run_wellFormed ops) as ([_ Hal] & Hnd & _).
  split; [done|]. intros u. split.
  - intros Hin. apply list_elem_of_lookup in Hin as [i Hi].
    destruct (Hal i u Hi) as (f & _ & Hf). by exists f.
  - apply run_tracked.
Qed.

(** X8.  Offering files in two batches gives the same state as offering
    them in one. *)
Theorem batches_compose (fs1 fs2 : list File) (w : World) :
  handleImageChange (Some (fs1 ++ fs2)) w =
    handleImageChange (Some fs2) (handleImageChange (Some fs1) w).
Proof.
  rewrite !handleImageChange_fold, fold_left_app. by rewrite ofWorld_toWorld.
Qed.

Lemma fold_offer_urls (fs : list File) (l : Locals) :
  ∃ new, newImagePreviewUrls (fold_left offer fs l) =
           newImagePreviewUrls l ++ new.
Proof.
  revert l. induction fs as [|f fs IH]; intros l; simpl.
  - exists []. by rewrite app_nil_r.
  - destruct (IH (offer l f)) as [new ->].
    destruct (offer_cases l f) as [-> | [-> | ->]]; simpl; eauto.
    rewrite <- app_assoc. eauto.
Qed.

(** X9.  Adding files never drops or reorders what is already attached:
    the new image list is the old one followed by the offered files that
    pass both checks, in the order offered; the old previews stay in
    place with one new preview per accepted file; and each refused file
    adds its one notice, in order. *)
Theorem adding_keeps_order (fs : list File) (w : World) :
  images (handleImageChange (Some fs) w) =
    images w ++ List.filter accepted fs ∧
  (∃ new, imagePreviewUrls (handleImageChange (Some fs) w) =
            imagePreviewUrls w ++ new ∧
          List.length new = List.length (List.filter accepted fs)) ∧
  toasts (handleImageChange (Some fs) w) =
    toasts w ++ List.concat (map notice fs).
Proof.
  rewrite handleImageChange_fold.
  destruct (fold_offer_lists fs (ofWorld w)) as (Hi & Ht & Hl).
  destruct (fold_offer_urls fs (ofWorld w)) as [new Hn].
  simpl in *. split; [done|]. split; [|done].
  exists new. split; [done|]. rewrite Hn, length_app in Hl. lia.
Qed.

(** X10.  Removing at an index past the end changes nothing, in any
    state the user can reach. *)
Theorem remove_past_end_is_noop (ops : list Op) (index : nat) :
  (List.length (images (run ops)) ≤ index)%nat →
  removeImage index (run ops) = run ops.
Proof.
  intros Hi. destruct (run_wellFormed ops) as ([Hlen _] & _ & _).
  unfold removeImage.
  rewrite (list_delete_ge (images _)) by done.
  rewrite (list_delete_ge (imagePreviewUrls _)) by lia.
  rewrite (lookup_ge_None_2 (imagePreviewUrls _)) by lia.
  simpl. by destruct (run ops).
Qed.

Lemma remove_past_end_is_noop_witness :
  let a := {| file_name := "front.png"; file_type := "image/png";
              file_size := 204800 |} in
  removeImage 1 (run [Add (Some [a])]) = run [Add (Some [a])].
Proof.
  intros a. apply (remove_past_end_is_noop [Add (Some [a])] 1).
  vm_compute. lia.
Defined.

(** X11.  Attaching one acceptable file and removing it again restores
    the attachment lists, the notices and the store; only the serial
    number of the next URL has moved on. *)
Theorem add_then_remove_restores (ops : list Op) (f : File) :
  accepted f = true →
  let w := run ops in
  let w' := removeImage (List.length (images w))
              (handleImageChange (Some [f]) w) in
  images w' = images w ∧ imagePreviewUrls w' = imagePreviewUrls w ∧
  toasts w' = toasts w ∧ blobs w' = blobs w ∧
  nextUrl w' = N.succ (nextUrl w).
Proof.
  intros Hacc w w'. subst w'.
  destruct (run_wellFormed ops) as ([Hlen _] & _ & Hfresh). fold w in Hlen, Hfresh.
  unfold accepted in Hacc. apply andb_true_iff in Hacc as [Hm Hs].
  unfold removeImage, handleImageChange. simpl. unfold offer.
  rewrite Hm. simpl. apply negb_true_iff in Hs. rewrite Hs. simpl.
  clearbody w. split; [|split; [|split; [|split]]]; try done.
  - by rewrite (delete_middle (images w) [] f), app_nil_r.
  - rewrite Hlen.
    by rewrite (delete_middle (imagePreviewUrls w) [] (nextUrl w)), app_nil_r.
  - rewrite Hlen, list_lookup_middle by done. simpl.
    apply delete_insert_id.
    destruct (blobs w !! nextUrl w) as [g|] eqn:Hg; [|done].
    assert (nextUrl w < nextUrl w)%N; [|lia]. apply Hfresh. by exists g.
Qed.

Lemma add_then_remove_restores_witness :
  let a := {| file_name := "front.png"; file_type := "image/png";
              file_size := 204800 |} in
  let b := {| file_name := "back.jpg"; file_type := "image/jpeg";
              file_size := 5242880 |} in
  images (removeImage 1 (handleImageChange (Some [b]) (run [Add (Some [a])])))
    = [a].
Proof.
  intros a b.
  destruct (add_then_remove_restores [Add (Some [a])] b) as (Hi & _).
  - reflexivity.
  - exact Hi.
Defined.

(** X12.  No genuine image is turned away for its type: a file whose
    MIME type starts with [image/] is attached, without a notice, exactly
    when it is at most 5MB, and otherwise gets the size notice. *)
Theorem image_family_decided_by_size (f : File) (w : World) :
  isImageType f = true →
  ((file_size f ≤ maxFileSize)%N →
     images (handleImageChange (Some [f]) w) = images w ++ [f] ∧
     toasts (handleImageChange (Some [f]) w) = toasts w) ∧
  ((maxFileSize < file_size f)%N →
     images (handleImageChange (Some [f]) w) = images w ∧
     imagePreviewUrls (handleImageChange (Some [f]) w) = imagePreviewUrls w ∧
     toasts (handleImageChange (Some [f]) w) = toasts w ++ [fileTooLarge]).
Proof.
  unfold isImageType. intros Ht. apply image_family_matches in Ht.
  unfold handleImageChange. simpl. unfold offer. rewrite Ht. simpl.
  split; intros Hs.
  - apply N.ltb_ge in Hs. by rewrite Hs.
  - apply N.ltb_lt in Hs. by rewrite Hs.
Qed.

Lemma image_family_decided_by_size_witness :
  let b := {| file_name := "back.jpg"; file_type := "image/jpeg";
              file_size := 5242880 |} in
  let c := {| file_name := "scan.tiff"; file_type := "image/tiff";
              file_size := 5242881 |} in
  images (handleImageChange (Some [b]) initial) = [b] ∧
  toasts (handleImageChange (Some [c]) initial) = [fileTooLarge].
Proof.
  intros b c. split.
  - destruct (image_family_decided_by_size b initial) as [H _]; [reflexivity|].
    destruct H as [-> _]; [vm_compute; discriminate | reflexivity].
  - destruct (image_family_decided_by_size c initial) as [_ H]; [reflexivity|].
    destruct H as (_ & _ & ->); [vm_compute; reflexivity | reflexivity].
Defined.

End ImageStoreFacts.

(** ** The auth modal: steps, views and outcomes *)

Section AuthViewFacts.

Import Auth AuthView.

Lemma lastRegistered_snoc (acts : list Action) (a : Action) :
  lastRegistered (acts ++ [a]) =
    match a with
    | RegisterSuccess e => Some e
    | _ => lastRegistered acts
    end.
Proof. unfold lastRegistered. by rewrite fold_left_app. Qed.

Lemma after_snoc (p : Props) (acts : list Action) (a : Action) :
  after p (acts ++ [a]) = act (after p acts) a.
Proof. unfold after. by rewrite fold_left_app. Qed.

Lemma initialStep_not_verify (t : AuthType) : initialStep t ≠ StepVerify.
Proof. by destruct t. Qed.

(** The email cell is written by a successful registration only, and the
    verify step is entered by one only. *)
Lemma email_follows_registration (p : Props) (acts : list Action) :
  email (after p acts) = default "" (lastRegistered acts) ∧
  (step (after p acts) = StepVerify → is_Some (lastRegistered acts)).
Proof.
  induction acts as [|a acts [IHe IHs]] using rev_ind.
  - unfold after. simpl. unfold mount, resetEffect.
    destruct (isOpen p); simpl; split; try done;
      intros H; by destruct (initialStep_not_verify _ H).
  - rewrite after_snoc, lastRegistered_snoc.
    destruct a as [| |e|p']; simpl; try by split.
    unfold render. case_decide as Hsame; [by split|].
    unfold resetEffect. simpl. destruct (isOpen p'); simpl; [|by split].
    split; [done|]. intros Hv. by destruct (initialStep_not_verify _ Hv).
Qed.

(** X13.  After any history of clicks, registrations and re-renders, the
    dialog shows exactly one of its three forms; and whenever that is the
    verification form, the email it is given is the one of the latest
    successful registration. *)
Theorem verification_form_gets_registered_email (p : Props)
    (acts : list Action) (t : AuthType) :
  (∃ v, forms t (after p acts) = [v]) ∧
  (∀ e, VerificationForm e ∈ forms t (after p acts) →
     lastRegistered acts = Some e).
Proof.
  destruct (email_follows_registration p acts) as [He Hs].
  unfold forms. destruct (step (after p acts)) eqn:Hstep; simpl.
  - split; [eauto|]. intros e Hin.
    apply list_elem_of_singleton in Hin. discriminate Hin.
  - split; [eauto|]. intros e Hin.
    apply list_elem_of_singleton in Hin. discriminate Hin.
  - split; [eauto|]. intros e Hin.
    apply list_elem_of_singleton in Hin. injection Hin as ->.
    destruct (Hs eq_refl) as [e' He']. rewrite He' in He |- *. simpl in He.
    by rewrite He.
Qed.

Lemma verification_form_gets_registered_email_witness :
  let p := {| isOpen := true; type := TypeHelp |} in
  let acts := [LoginClick; RegisterClick; RegisterSuccess "ann@example.org";
               Rerender p] in
  forms TypeHelp (after p acts) = [VerificationForm "ann@example.org"] ∧
  lastRegistered acts = Some "ann@example.org".
Proof.
  intros p acts. split; [reflexivity|].
  apply (proj2 (verification_form_gets_registered_email p acts TypeHelp)).
  vm_compute. apply list_elem_of_In. simpl. tauto.
Defined.



(** X15.  Title and description are shown or hidden together: both are
    absent exactly when the modal's type is [login] or the login step is
    showing, and both are present otherwise, also in the verify step. *)
Theorem title_and_description_together (t : AuthType) (s : AuthStep) :
  (getTitle t s = None ↔ t = TypeLogin ∨ s = StepLogin) ∧
  (getDescription t s = None ↔ t = TypeLogin ∨ s = StepLogin).
Proof.
  destruct t, s; simpl; split; split; intros H; try done; auto;
    by destruct H.
Qed.

(** X16.  The redirect rule in full: no page load is requested exactly
    when the type is [login] or the path is a non-root path without
    [/dashboard]; and a requested page load goes to [/new-repair-request]
    for type [repair] and to [/repair-requests] for type [help], nowhere
    else. *)
Theorem redirect_characterised (currentPath : string) (t : AuthType) :
  (redirect currentPath t = None ↔
     t = TypeLogin ∨
     (Js.startsWith "/" currentPath = true ∧
      (1 < String.length currentPath)%nat ∧
      Js.includes "/dashboard" currentPath = false)) ∧
  (∀ href, redirect currentPath t = Some href →
     (t = TypeRepair ∧ href = "/new-repair-request") ∨
     (t = TypeHelp ∧ href = "/repair-requests")).
Proof.
  unfold redirect.
  destruct (Js.startsWith "/" currentPath);
    destruct (Nat.ltb_spec 1 (String.length currentPath)) as [Hl|Hl];
    destruct (Js.includes "/dashboard" currentPath);
    destruct t; simpl; split;
    try (split; intros H; try done; auto;
         destruct H as [H|(H1 & H2 & H3)]; try done; lia);
    intros href H; try done; injection H as <-; auto.
Qed.

Lemma redirect_characterised_witness :
  redirect "/dashboard/requests" TypeLogin = None ∧
  redirect "/repairs/dashboard" TypeHelp = Some "/repair-requests".
Proof.
  split.
  - apply (proj1 (redirect_characterised "/dashboard/requests" TypeLogin)).
    by left.
  - destruct (redirect "/repairs/dashboard" TypeHelp) as [href|] eqn:E.
    + destruct (proj2 (redirect_characterised "/repairs/dashboard" TypeHelp)
                  href E) as [[H _]|[_ ->]]; [discriminate H | reflexivity].
    + discriminate E.
Defined.

End AuthViewFacts.

(** ** Outcomes of verification and login *)

Section AuthOutcomes.

Import Auth AuthView.

(** X17.  A verification asks for the session once.  With a session and
    no error it closes the modal once, shows the success notice, and
    changes location only as the redirect rule says.  In every other
    case the modal is left open and the location untouched; an error or
    a missing session shows one destructive notice, a rejected promise
    shows none. *)
Theorem verification_closes_only_with_session (currentPath : string)
    (t : AuthType) (r : Js.Awaited SessionResponse) :
  let w := verification currentPath t r in
  calls w = [GetSession] ∧
  (established r = true →
     closed w = 1 ∧
     toasts w =
       [ {| Ui.title := "Verification successful";
            Ui.description :=
              "Your email has been verified. You are now logged in.";
            Ui.variant := Ui.Default |} ] ∧
     navLog w = match redirect currentPath t with
                | Some href => [LocationAssign href]
                | None => []
                end) ∧
  (established r = false →
     closed w = 0 ∧ navLog w = [] ∧
     match r with
     | Js.Resolved _ =>
         ∃ x, toasts w = [x] ∧ Ui.variant x = Ui.Destructive
     | Js.Rejected _ => toasts w = []
     end).
Proof.
  unfold verification, runAsync, handleVerificationSuccess, afterSession,
    applyRedirect, established. simpl.
  destruct r as [[s [msg|]]|e]; simpl.
  - split; [done|]. split; [by rewrite andb_false_r|]. eauto.
  - destruct s; simpl.
    + split; [|split; [|done]]; by destruct (redirect currentPath t).
    + split; [done|]. split; [done|]. eauto.
  - by repeat split.
Qed.

Lemma verification_closes_only_with_session_witness :
  closed (verification "/" TypeHelp
            (Js.Resolved {| session := true; sessionError := None |})) = 1 ∧
  closed (verification "/" TypeHelp
            (Js.Resolved {| session := false; sessionError := None |})) = 0 ∧
  toasts (verification "/" TypeHelp (Js.Rejected Js.ThrownOther)) = [].
Proof.
  split; [|split].
  - destruct (verification_closes_only_with_session "/" TypeHelp
                (Js.Resolved {| session := true; sessionError := None |}))
      as (_ & H & _).
    destruct H as [Hc _]; [reflexivity | exact Hc].
  - destruct (verification_closes_only_with_session "/" TypeHelp
                (Js.Resolved {| session := false; sessionError := None |}))
      as (_ & _ & H).
    destruct H as [Hc _]; [reflexivity | exact Hc].
  - destruct (verification_closes_only_with_session "/" TypeHelp
                (Js.Rejected Js.ThrownOther)) as (_ & _ & H).
    destruct H as (_ & _ & Ht); [reflexivity | exact Ht].
Defined.

(** X18.  A sign-in that is refused, by an error in the response or by a
    rejected promise, goes no further: the success callback is not
    started, nothing navigates, the modal is not closed, the submit
    control is re-enabled, and the one notice is a destructive
    [Login failed] whose description is never empty. *)
Theorem refused_login_stays (onLoginSuccess : Async) (values : Credentials)
    (r : Js.Awaited SignInResponse) (w : World) :
  refused r = true →
  let w' := onSubmit onLoginSuccess values r w in
  isSubmitting w' = false ∧
  calls w' =
    calls w ++ [SignInWithPassword (cred_email values) (cred_password values)] ∧
  navLog w' = navLog w ∧ closed w' = closed w ∧
  ∃ x, toasts w' = toasts w ++ [x] ∧
       Ui.title x = "Login failed" ∧ Ui.variant x = Ui.Destructive ∧
       Ui.description x ≠ "".
Proof.
  unfold refused, onSubmit. intros Hr.
  destruct r as [[[msg|]]|e]; simpl in *.
  - repeat split. eexists. repeat split. by destruct msg.
  - first [discriminate Hr | by apply bool_decide_eq_true in Hr].
  - repeat split. eexists. by repeat split.
Qed.

Lemma refused_login_stays_witness :
  let values := {| cred_email := "ann@example.org"; cred_password := "secret1" |} in
  let cb := handleLoginSuccess "/" TypeRepair
              (Js.Resolved {| session := true; sessionError := None |}) in
  navLog (onSubmit cb values (Js.Resolved {| signInError := Some "" |}) initial)
    = [] ∧
  calls (onSubmit cb values (Js.Rejected Js.ThrownOther) initial)
    = [SignInWithPassword "ann@example.org" "secret1"].
Proof.
  intros values cb. split.
  - destruct (refused_login_stays cb values
                (Js.Resolved {| signInError := Some "" |}) initial)
      as (_ & _ & Hn & _); [reflexivity | exact Hn].
  - destruct (refused_login_stays cb values (Js.Rejected Js.ThrownOther) initial)
      as (_ & Hc & _); [reflexivity | exact Hc].
Defined.

(** X19.  Once the sign-in is accepted, the form shows its success
    notice, re-enables the submit control and sends the router to
    [/dashboard] before the modal has looked at the session: this happens
    for every answer of [getSession], and when no session is established
    it is the only change of location, with the modal left open. *)
Theorem accepted_login_goes_to_dashboard (currentPath : string)
    (t : AuthType) (values : Credentials) (sess : Js.Awaited SessionResponse) :
  let w := login currentPath t values
             (Js.Resolved {| signInError := None |}) sess in
  isSubmitting w = false ∧
  calls w =
    [SignInWithPassword (cred_email values) (cred_password values); GetSession] ∧
  (∃ more, toasts w =
     {| Ui.title := "Login successful"; Ui.description := "Welcome back!";
        Ui.variant := Ui.Default |} :: more) ∧
  (∃ rest, navLog w = RouterNavigate "/dashboard" :: rest ∧
     (established sess = false → rest = [] ∧ closed w = 0)).
Proof.
  unfold login, onSubmit, handleLoginSuccess, afterSession, applyRedirect,
    established. simpl.
  destruct sess as [[s [msg|]]|e]; simpl.
  - repeat split; eauto.
  - destruct s; simpl.
    + destruct (redirect currentPath t); simpl; repeat split; eauto;
        eexists; split; eauto; discriminate.
    + repeat split; eauto.
  - repeat split; eauto.
Qed.

Lemma accepted_login_goes_to_dashboard_witness :
  let values := {| cred_email := "ann@example.org"; cred_password := "secret1" |} in
  navLog (login "/" TypeRepair values (Js.Resolved {| signInError := None |})
            (Js.Resolved {| session := false; sessionError := None |}))
    = [RouterNavigate "/dashboard"].
Proof.
  intros values.
  destruct (accepted_login_goes_to_dashboard "/" TypeRepair values
              (Js.Resolved {| session := false; sessionError := None |}))
    as (_ & _ & _ & rest & Hn & Hrest).
  destruct Hrest as [-> _]; [reflexivity | exact Hn].
Defined.

(** X20.  The login form's password check accepts a password exactly
    when it has at least 6 characters; there is no upper bound. *)
Theorem password_accepted_iff_six (s : string) :
  LoginSchema.validPassword s = true ↔ (6 ≤ String.length s)%nat.
Proof.
  unfold LoginSchema.validPassword, LoginSchema.passwordIssues,
    Zod.stringIssues, LoginSchema.passwordChecks. simpl.
  destruct (Nat.ltb_spec (String.length s) 6) as [Hl|Hl]; simpl;
    split; intros; try done; lia.
Qed.

Lemma password_accepted_iff_six_witness :
  LoginSchema.validPassword "secret" = true ∧
  LoginSchema.validPassword (Js.repeat "x" 2000) = true.
Proof.
  split.
  - apply (proj2 (password_accepted_iff_six "secret")). simpl. lia.
  - apply (proj2 (password_accepted_iff_six (Js.repeat "x" 2000))).
    vm_compute. lia.
Defined.

End AuthOutcomes.

(** ** The timeslot page *)

Section TimeslotFacts.

Import Timeslots TimeslotPage.



(** X22.  A fetch that fails, by an error in the response or by a
    rejected promise, keeps the list and the selection it found, clears
    [loading], and writes one line to the console; on a first load the
    dropdown therefore stays hidden. *)
Theorem failed_fetch_keeps_state (r : Js.Awaited Response) (st : State) :
  failed r = true →
  locations (fetchLocations r st) = locations st ∧
  selectedLocation (fetchLocations r st) = selectedLocation st ∧
  loading (fetchLocations r st) = false ∧
  List.length (console (fetchLocations r st)) = S (List.length (console st)) ∧
  showsDropdown (fetchLocations r initial) = false.
Proof.
  unfold failed, fetchLocations, received, showsDropdown.
  destruct r as [[d [msg|]]|e]; simpl; intros Hf.
  - rewrite length_app. simpl. repeat split; lia.
  - first [discriminate Hf | by apply bool_decide_eq_true in Hf].
  - rewrite length_app. simpl. repeat split; lia.
Qed.

Lemma failed_fetch_keeps_state_witness :
  let r := Js.Resolved {| data := None; error := Some "permission denied" |} in
  locations (fetchLocations r initial) = [] ∧
  loading (fetchLocations (Js.Rejected Js.ThrownOther) initial) = false.
Proof.
  intros r. split.
  - destruct (failed_fetch_keeps_state r initial) as (Hl & _);
      [reflexivity | exact Hl].
  - destruct (failed_fetch_keeps_state (Js.Rejected Js.ThrownOther) initial)
      as (_ & _ & Hl & _); [reflexivity | exact Hl].
Defined.

(** X23.  The effect is keyed on the selection, so the default selection
    made by one fetch starts another; that second fetch, given the same
    answer, changes neither the list, nor the selection, nor [loading]. *)
Theorem refetch_changes_nothing (r : Js.Awaited Response) (st : State) :
  let st1 := fetchLocations r st in
  locations (fetchLocations r st1) = locations st1 ∧
  selectedLocation (fetchLocations r st1) = selectedLocation st1 ∧
  loading (fetchLocations r st1) = loading st1.
Proof.
  unfold fetchLocations, received.
  destruct r as [[[[|x d]|] [msg|]]|e]; simpl; try done.
  destruct (truthy (selectedLocation st)) eqn:Ht; simpl.
  - by rewrite Ht.
  - by destruct (location_id x).
Qed.




End TimeslotFacts.
